(** * pr-labeler: team synchronisation and pull-request labelling

    A shallow embedding of the two GitHub actions of the repository:

    - the team synchroniser ([synchronizeTeamData], [createTeamWithNoMembers],
      [getExistingTeamAndMembers] and its [run]), and
    - the pull-request labeller ([getTeamLabel], [getPrAuthor],
      [getLabelGlobMapFromObject], [checkGlobs], [addLabels] and its [run]).

    JavaScript arrays are lists, a [Map] is an association list in insertion
    order, [async] functions are trees of awaited Octokit requests in which
    every request may be rejected, and [try]/[catch] is an operation on those
    trees.  Calls to [core.debug] only write to the log and are left out, and
    the inputs of the actions ([repo-token], [team-data-path],
    [configuration-path]) are taken as given, except in
    [Labeler.run_with_inputs], which reads them.  The repository also holds two
    earlier drafts of the synchroniser's [run], which fetch the team data and
    change nothing; the embedding follows the complete one. *)

From Stdlib Require Import Ascii.
From stdpp Require Import base strings list gmap sets.

Set Default Proof Using "Type".

(** ** JavaScript values and errors *)

(** What [yaml.safeLoad] can put under a key of the configuration. *)
#[warnings="-register-all"]
Inductive value : Type :=
| VString (s : string)
| VArray (elements : list value)
| VNumber (n : Z)
| VBool (b : bool)
| VNull
| VObject (fields : list (string * value)).

(** A thrown JavaScript error; [message] is what [core.setFailed] receives.
    A rejected Octokit request carries the HTTP [status] (404 for a team that
    does not exist); no function of the repository reads it. *)
Record Error : Type := mkError { message : string; status : option Z }.

Definition TypeError (msg : string) : Error := mkError msg None.

#[global] Instance Error_eq_dec : EqDecision Error.
Proof. solve_decision. Defined.

(** ** Octokit requests *)

Record content_data := { content : string; encoding : string }.
Record file_data := { filename : string }.
Record user_data := { login : string }.
Record team_data := { team_name : string; team_slug : string }.

(** [teams_configuration_location] of the labeller's configuration, spread
    into the parameters of [repos.getContents] after [ref: 'master']. *)
Record location := { loc_owner : string; loc_repo : string; loc_path : string;
                     loc_ref : option string }.

Inductive call : Type :=
| repos_getContents (owner repo path ref : string)
| users_getAuthenticated
| teams_getByName (org team_slug : string)
| teams_listMembersInOrg (org team_slug : string)
| teams_create (org name privacy : string)
| teams_removeMembershipInOrg (org team_slug username : string)
| teams_addOrUpdateMembershipInOrg (org team_slug username : string)
| pulls_listFiles (owner repo : string) (pull_number : Z)
| pulls_update (owner repo : string) (pull_number : Z) (state : string)
| issues_addLabels (owner repo : string) (issue_number : Z) (labels : list string).

#[global] Instance call_eq_dec : EqDecision call.
Proof. solve_decision. Defined.

(** The [data] field of the response of a request. *)
Definition response (c : call) : Type :=
  match c with
  | repos_getContents _ _ _ _ => content_data
  | users_getAuthenticated => user_data
  | teams_getByName _ _ => team_data
  | teams_listMembersInOrg _ _ => list user_data
  | pulls_listFiles _ _ _ => list file_data
  | _ => unit
  end.

(** ** Asynchronous computations *)

(** An [async] function body: it returns, throws, or awaits a request and
    continues with the resolved response or the rejection. *)
Inductive io (A : Type) : Type :=
| Return (a : A)
| Throw (e : Error)
| Await (c : call) (k : Error + response c → io A).

Arguments Return {A} a.
Arguments Throw {A} e.
Arguments Await {A} c k.

Fixpoint bind {A B} (m : io A) (f : A → io B) : io B :=
  match m with
  | Return a => f a
  | Throw e => Throw e
  | Await c k => Await c (λ r, bind (k r) f)
  end.

(** [await client.f(params)]: a rejection is thrown at the [await]. *)
Definition await (c : call) : io (response c) :=
  Await c (λ r, match r with inl e => Throw e | inr d => Return d end).

(** [await client.f(params)] as a statement: the response is dropped. *)
Definition request (c : call) : io unit :=
  Await c (λ r, match r with inl e => Throw e | inr _ => Return tt end).

(** [try { m } catch (error) { h error }] *)
Fixpoint try_catch {A} (m : io A) (h : Error → io A) : io A :=
  match m with
  | Return a => Return a
  | Throw e => h e
  | Await c k => Await c (λ r, try_catch (k r) h)
  end.

Notation "'let*' x := m 'in' k" := (bind m (λ x, k))
  (at level 10, x pattern, m at level 100, k at level 200, only parsing).
Notation "m ;;; k" := (bind m (λ _, k))
  (at level 100, right associativity, only parsing).

(** [for (const x of l) { body x }] *)
Fixpoint forOf {A} (l : list A) (body : A → io unit) : io unit :=
  match l with
  | [] => Return tt
  | x :: l' => body x ;;; forOf l' body
  end.

(** A client answers every request from its state: it resolves with the data
    or rejects with an error, and moves to a new state. *)
Definition client (S : Type) : Type := ∀ c : call, S → (Error + response c) * S.

(** A request as it is logged: with the error when it was rejected. *)
Definition rejection {R} (r : Error + R) : option Error :=
  match r with inl e => Some e | inr _ => None end.

(** Running a computation against a client: the requests issued, in order,
    the final state of the client and the outcome ([inl] for an uncaught
    error). *)
Fixpoint exec {S A} (h : client S) (m : io A) (s : S)
  : list (call * option Error) * S * (Error + A) :=
  match m with
  | Return a => ([], s, inr a)
  | Throw e => ([], s, inl e)
  | Await c k =>
      let r := h c s in
      let x := exec h (k r.1) r.2 in
      ((c, rejection r.1) :: x.1.1, x.1.2, x.2)
  end.

Definition log {S A} (h : client S) (m : io A) (s : S) : list (call * option Error) :=
  (exec h m s).1.1.
Definition trace {S A} (h : client S) (m : io A) (s : S) : list call := (log h m s).*1.
Definition final {S A} (h : client S) (m : io A) (s : S) : S := (exec h m s).1.2.
Definition outcome {S A} (h : client S) (m : io A) (s : S) : Error + A := (exec h m s).2.

(** [Array.prototype.includes] on an array of strings. *)
Definition includes (l : list string) (x : string) : bool := bool_decide (x ∈ l).

(** The ambient [github.context]. *)
Record pull_request := { number : Z; user : user_data }.
Record Context := { owner : string; repo : string; sha : string;
                    payload_pull_request : option pull_request }.

(** The decoded team data file: team name to [{members: [{github}], short?}]. *)
Record member := { github : string }.
Record team_entry := { members : option (list member); short : option string }.

(** What the action reports: [core.setFailed] is called in the [catch] of
    [run] and nowhere else. *)
Inductive run_status : Type := Succeeded | Failed (reason : string).

(** ** The team synchroniser *)

Module TeamSync.
Section team_sync.
(** [slugify(teamName, {decamelize: false})], [JSON.parse] and
    [Buffer.from(content, encoding).toString()] are library functions. *)
Context (slugify : string → string).
Context (JSON_parse : string → Error + list (string * team_entry)).
Context (Buffer_toString : string → string → string).
Context (context : Context).

Definition fetchContent (repoPath : string) : io string :=
  let* data := await (repos_getContents (owner context) (repo context) repoPath (sha context)) in
  Return (Buffer_toString (content data) (encoding data)).

Definition getTeamData (teamDataPath : string) : io (list (string * team_entry)) :=
  let* teamDataContent := fetchContent teamDataPath in
  match JSON_parse teamDataContent with
  | inl e => Throw e
  | inr teamData => Return teamData
  end.

(** [existingMembers] is assigned by the last statement of the [try] block,
    so it still is [[]] whenever the [catch] block runs. *)
Definition getExistingTeamAndMembers (org teamSlug : string)
  : io (option team_data * list string) :=
  try_catch
    (let* teamResponse := await (teams_getByName org teamSlug) in
     let existingTeam := Some teamResponse in
     let* membersResponse := await (teams_listMembersInOrg org teamSlug) in
     let existingMembers := login <$> membersResponse in
     Return (existingTeam, existingMembers))
    (λ _, Return (None, [])).

Definition createTeamWithNoMembers (org teamName teamSlug authenticatedUserLogin : string)
  : io unit :=
  request (teams_create org teamName "closed") ;;;
  request (teams_removeMembershipInOrg org teamSlug authenticatedUserLogin).

(** The two branches on [existingTeam] and the loop over [desiredMembers]
    of the body of [synchronizeTeamData]. *)
Definition reconcileMembers (org authenticatedUserLogin teamName teamSlug : string)
    (desiredMembers : list string)
    (existingTeam : option team_data) (existingMembers : list string) : io unit :=
  match existingTeam with
  | Some _ =>
      forOf existingMembers (λ username,
        if negb (includes desiredMembers username)
        then request (teams_removeMembershipInOrg org teamSlug username)
        else Return tt)
  | None => createTeamWithNoMembers org teamName teamSlug authenticatedUserLogin
  end ;;;
  forOf desiredMembers (λ username,
    if negb (includes existingMembers username)
    then request (teams_addOrUpdateMembershipInOrg org teamSlug username)
    else Return tt).

(** One iteration of [for (const teamName of Object.keys(teamData))];
    [.members.map] on a team without [members] throws a [TypeError]. *)
Definition synchronizeTeam (org authenticatedUserLogin : string)
    (team : string * team_entry) : io unit :=
  let teamName := team.1 in
  let teamSlug := slugify teamName in
  match members team.2 with
  | None => Throw (TypeError "Cannot read property 'map' of undefined")
  | Some ms =>
      let desiredMembers := github <$> ms in
      let* found := getExistingTeamAndMembers org teamSlug in
      reconcileMembers org authenticatedUserLogin teamName teamSlug
        desiredMembers found.1 found.2
  end.

Definition synchronizeTeamData (org authenticatedUserLogin : string)
    (teamData : list (string * team_entry)) : io unit :=
  forOf teamData (synchronizeTeam org authenticatedUserLogin).

Definition run (teamDataPath : string) : io run_status :=
  try_catch
    (let org := owner context in
     let* authenticatedUserResponse := await users_getAuthenticated in
     let authenticatedUserLogin := login authenticatedUserResponse in
     let* teamData := getTeamData teamDataPath in
     synchronizeTeamData org authenticatedUserLogin teamData ;;;
     Return Succeeded)
    (λ error, Return (Failed (message error))).

End team_sync.
End TeamSync.

(** ** The pull-request labeller *)

(** A JavaScript [Map] keeps its entries in insertion order; [set] on a key
    that is present replaces the value where the entry stands. *)
Definition Map (V : Type) : Type := list (string * V).

Fixpoint Map_set {V} (m : Map V) (key : string) (v : V) : Map V :=
  match m with
  | [] => [(key, v)]
  | (k, w) :: m' => if decide (k = key) then (k, v) :: m' else (k, w) :: Map_set m' key v
  end.

(** [new Map(entries)] *)
Definition Map_new {V} (entries : list (string * V)) : Map V :=
  foldl (λ m kv, Map_set m kv.1 kv.2) [] entries.

(** The decoded configuration file.  A missing [file_pattern_labels] is the
    empty list: [for ... in] over [undefined] runs no iteration. *)
Record config := { file_pattern_labels : list (string * value);
                   teams_configuration_location : option location;
                   team_labels : option (list (string * list string)) }.

(** [l.replace(/#/g, '')] *)
Fixpoint stripHash (l : string) : string :=
  match l with
  | EmptyString => EmptyString
  | String c l' => if decide (c = "#"%char) then stripHash l' else String c (stripHash l')
  end.

(** A thrown error or a value, for the synchronous functions that throw. *)
Definition liftE {A} (r : Error + A) : io A :=
  match r with inl e => Throw e | inr a => Return a end.

Module Labeler.
Section labeler.
(** [new Minimatch(glob)] throws or builds a matcher, whose [match] is a
    predicate on paths; [yaml.safeLoad], [JSON.parse] and
    [Buffer.from(content, encoding).toString()] are library functions too. *)
Context (Minimatch : value → Error + (string → bool)).
Context (yaml_safeLoad : string → Error + config).
Context (JSON_parse : string → Error + list (string * team_entry)).
Context (Buffer_toString : string → string → string).
Context (context : Context).

Definition getTeamLabel (labelsConfiguration : Map (list string)) (author : string)
  : list string :=
  (filter (λ entry, includes entry.2 author) labelsConfiguration).*1.

Definition getPrAuthor : string :=
  match payload_pull_request context with
  | None => "unknown"
  | Some pullRequest => login (user pullRequest)
  end.

Definition getPrNumber : option Z :=
  match payload_pull_request context with
  | None => None
  | Some pullRequest => Some (number pullRequest)
  end.

Definition fetchContent (repoPath : string) : io string :=
  let* data := await (repos_getContents (owner context) (repo context) repoPath (sha context)) in
  Return (Buffer_toString (content data) (encoding data)).

Definition getChangedFiles (prNumber : Z) : io (list string) :=
  let* listFilesResponse := await (pulls_listFiles (owner context) (repo context) prNumber) in
  Return (filename <$> listFilesResponse).

Definition getConfigurationContents (configurationPath : string) : io config :=
  let* configurationContent := fetchContent configurationPath in
  liftE (yaml_safeLoad configurationContent).

(** The loop of [getLabelGlobMapFromObject], from the entries that remain
    and the map built so far. *)
Fixpoint getLabelGlobMapFrom (entries : list (string * value))
    (labelGlobs : Map (list value)) : Error + Map (list value) :=
  match entries with
  | [] => inr labelGlobs
  | (label, v) :: entries' =>
      match v with
      | VString _ => getLabelGlobMapFrom entries' (Map_set labelGlobs label [v])
      | VArray globs => getLabelGlobMapFrom entries' (Map_set labelGlobs label globs)
      | _ => inl (mkError ("found unexpected type for label " +:+ label +:+
                           " (should be string or array of globs)") None)
      end
  end.

Definition getLabelGlobMapFromObject (configObject : list (string * value))
  : Error + Map (list value) :=
  getLabelGlobMapFrom configObject [].

Definition getLabelGlobs (configObject : config) : Error + Map (list value) :=
  getLabelGlobMapFromObject (file_pattern_labels configObject).

Fixpoint checkGlobs (changedFiles : list string) (globs : list value) : Error + bool :=
  match globs with
  | [] => inr false
  | glob :: globs' =>
      match Minimatch glob with
      | inl e => inl e
      | inr matcher =>
          if existsb matcher changedFiles then inr true
          else checkGlobs changedFiles globs'
      end
  end.

Definition addLabels (prNumber : Z) (labels : list string) : io unit :=
  request (issues_addLabels (owner context) (repo context) prNumber (stripHash <$> labels)).

(** The labels pushed by the loop over [labelGlobs.entries()] in [run]. *)
Fixpoint globLabels (changedFiles : list string) (labelGlobs : Map (list value))
  : Error + list string :=
  match labelGlobs with
  | [] => inr []
  | (label, globs) :: rest =>
      match checkGlobs changedFiles globs with
      | inl e => inl e
      | inr matched =>
          match globLabels changedFiles rest with
          | inl e => inl e
          | inr labels => inr (if matched then label :: labels else labels)
          end
      end
  end.

Definition shouldCloseAndReopenIssue (additionalLabels : list string) : bool :=
  bool_decide (0 < length additionalLabels).

(** The end of [run], from [const labels: string[] = []] on. *)
Definition labelPullRequest (prNumber : Z) (changedFiles : list string)
    (labelGlobs : Map (list value)) (teamLabelsToMembers : Map (list string)) : io unit :=
  let* globbed := liftE (globLabels changedFiles labelGlobs) in
  let additionalLabels := getTeamLabel teamLabelsToMembers getPrAuthor in
  let labels := globbed ++ additionalLabels in
  (if shouldCloseAndReopenIssue additionalLabels
   then request (pulls_update (owner context) (repo context) prNumber "closed")
   else Return tt) ;;;
  (if bool_decide (0 < length labels) then addLabels prNumber labels else Return tt) ;;;
  (if shouldCloseAndReopenIssue additionalLabels
   then request (pulls_update (owner context) (repo context) prNumber "open")
   else Return tt).

(** One entry of the external teams file; [short || teamName] takes the team
    name when [short] is missing or empty. *)
Definition teamLabelEntry (entry : string * team_entry) : Error + (string * list string) :=
  match members entry.2 with
  | Some ms =>
      let teamLabel := match short entry.2 with
                       | Some s => if decide (s = "") then entry.1 else s
                       | None => entry.1
                       end in
      inr (teamLabel, github <$> ms)
  | None => inl (mkError "unexpected team data format (expected an object mapping team names to team metadata" None)
  end.

(** [entries.map(f)] for an [f] that can throw. *)
Fixpoint mapE {A B} (f : A → Error + B) (l : list A) : Error + list B :=
  match l with
  | [] => inr []
  | x :: l' =>
      match f x with
      | inl e => inl e
      | inr y => match mapE f l' with inl e => inl e | inr ys => inr (y :: ys) end
      end
  end.

(** The team map of [run]: from the external teams file when the
    configuration points to one, from [team_labels] otherwise. *)
Definition getTeamLabelsToMembers (configObject : config) : io (Map (list string)) :=
  match teams_configuration_location configObject with
  | Some loc =>
      let* data := await (repos_getContents (loc_owner loc) (loc_repo loc) (loc_path loc)
                            (default "master" (loc_ref loc))) in
      let* teamsData := liftE (JSON_parse (Buffer_toString (content data) (encoding data))) in
      let* entries := liftE (mapE teamLabelEntry teamsData) in
      Return (Map_new entries)
  | None =>
      match team_labels configObject with
      | Some entries => Return (Map_new entries)
      | None => Throw (TypeError "Cannot convert undefined or null to object")
      end
  end.

(** [run] once its two required inputs are read, for the input
    [configuration-path] that was read; [run_with_inputs] below starts with
    the reading of the inputs. *)
Definition run (configPath : string) : io run_status :=
  try_catch
    (match getPrNumber with
     | None => Return Succeeded
     | Some prNumber =>
         if decide (prNumber = 0%Z) then Return Succeeded
         else
           let* configObject := getConfigurationContents configPath in
           let* changedFiles := getChangedFiles prNumber in
           let* labelGlobs := liftE (getLabelGlobs configObject) in
           let* teamLabelsToMembers := getTeamLabelsToMembers configObject in
           labelPullRequest prNumber changedFiles labelGlobs teamLabelsToMembers ;;;
           Return Succeeded
     end)
    (λ error, Return (Failed (message error))).

(** [run] as a whole.  [core.getInput(name, {required})] is a library
    function that throws when a required input is not supplied; the two
    inputs are read inside the [try] block, the token first. *)
Context (getInput : string → bool → Error + string).

Definition run_with_inputs : io run_status :=
  try_catch
    (let* token := liftE (getInput "repo-token" true) in
     let* configPath := liftE (getInput "configuration-path" true) in
     match getPrNumber with
     | None => Return Succeeded
     | Some prNumber =>
         if decide (prNumber = 0%Z) then Return Succeeded
         else
           let* configObject := getConfigurationContents configPath in
           let* changedFiles := getChangedFiles prNumber in
           let* labelGlobs := liftE (getLabelGlobs configObject) in
           let* teamLabelsToMembers := getTeamLabelsToMembers configObject in
           labelPullRequest prNumber changedFiles labelGlobs teamLabelsToMembers ;;;
           Return Succeeded
     end)
    (λ error, Return (Failed (message error))).

End labeler.
End Labeler.

(** ** Reference collaborators

    Instances of the library functions and of the GitHub API on which the
    functions above can be evaluated. *)

Module Reference.

(** A matcher for the part of the pattern language that the examples use:
    literal characters, [?] and [*] inside a path segment, and [**] as a
    whole segment standing for any number of segments. *)
Fixpoint segment_match (p s : string) : bool :=
  match p with
  | EmptyString => match s with EmptyString => true | _ => false end
  | String c p' =>
      if decide (c = "*"%char) then
        (fix star (s : string) : bool :=
           segment_match p' s ||
           match s with EmptyString => false | String _ s' => star s' end) s
      else
        match s with
        | EmptyString => false
        | String d s' =>
            (bool_decide (c = "?"%char) || bool_decide (c = d)) && segment_match p' s'
        end
  end.

Fixpoint segments_from (acc s : string) : list string :=
  match s with
  | EmptyString => [String.rev acc]
  | String c s' =>
      if decide (c = "/"%char) then String.rev acc :: segments_from EmptyString s'
      else segments_from (String c acc) s'
  end.

Definition segments (s : string) : list string := segments_from EmptyString s.

Fixpoint path_match (ps ss : list string) : bool :=
  match ps with
  | [] => match ss with [] => true | _ => false end
  | p :: ps' =>
      if decide (p = "**") then
        (fix star (ss : list string) : bool :=
           path_match ps' ss ||
           match ss with [] => false | _ :: ss' => star ss' end) ss
      else
        match ss with
        | [] => false
        | s :: ss' => segment_match p s && path_match ps' ss'
        end
  end.

Definition glob_match (pattern path : string) : bool :=
  path_match (segments pattern) (segments path).

Definition Minimatch (glob : value) : Error + (string → bool) :=
  match glob with
  | VString pattern => inr (glob_match pattern)
  | _ => inl (TypeError "glob pattern string required")
  end.

(** Team names that are slugs already. *)
Definition slugify (name : string) : string := name.

(** The organisation behind the requests, as the specification describes the
    external system.  A team is absent or has members; creating a team makes
    the authenticated identity its only member; adding a member who is there
    and removing one who is not change nothing. *)
Record organisation := { authenticated : string;
                         teams : gmap string (list string);
                         changed_files : list string;
                         applied_labels : list string }.

Definition not_found : Error := mkError "Not Found" (Some 404%Z).

Definition with_teams (g : organisation) (t : gmap string (list string)) : organisation :=
  {| authenticated := authenticated g; teams := t;
     changed_files := changed_files g; applied_labels := applied_labels g |}.

Definition with_labels (g : organisation) (l : list string) : organisation :=
  {| authenticated := authenticated g; teams := teams g;
     changed_files := changed_files g; applied_labels := l |}.

Definition api : client organisation := λ c,
  match c as c' return organisation → (Error + response c') * organisation with
  | repos_getContents _ _ _ _ => λ g,
      (inr {| content := ""; encoding := "base64" |}, g)
  | users_getAuthenticated => λ g, (inr {| login := authenticated g |}, g)
  | teams_getByName _ slug => λ g,
      match teams g !! slug with
      | Some _ => (inr {| team_name := slug; team_slug := slug |}, g)
      | None => (inl not_found, g)
      end
  | teams_listMembersInOrg _ slug => λ g,
      match teams g !! slug with
      | Some ms => (inr ((λ u, {| login := u |}) <$> ms), g)
      | None => (inl not_found, g)
      end
  | teams_create _ name _ => λ g,
      match teams g !! slugify name with
      | Some _ => (inl (mkError "Validation Failed" (Some 422%Z)), g)
      | None => (inr tt, with_teams g (<[slugify name := [authenticated g]]> (teams g)))
      end
  | teams_removeMembershipInOrg _ slug username => λ g,
      match teams g !! slug with
      | Some ms => (inr tt, with_teams g (<[slug := filter (λ u, u ≠ username) ms]> (teams g)))
      | None => (inl not_found, g)
      end
  | teams_addOrUpdateMembershipInOrg _ slug username => λ g,
      match teams g !! slug with
      | Some ms =>
          (inr tt, with_teams g (<[slug := if includes ms username then ms
                                           else ms ++ [username]]> (teams g)))
      | None => (inl not_found, g)
      end
  | pulls_listFiles _ _ _ => λ g,
      (inr ((λ f, {| filename := f |}) <$> changed_files g), g)
  | pulls_update _ _ _ _ => λ g, (inr tt, g)
  | issues_addLabels _ _ _ labels => λ g,
      (inr tt, with_labels g (applied_labels g ++ labels))
  end.

(** The same organisation during an outage of the team lookup: every
    [teams.getByName] is rejected with a server error. *)
Definition server_error : Error := mkError "Internal Server Error" (Some 500%Z).

Definition api_outage : client organisation := λ c,
  match c as c' return organisation → (Error + response c') * organisation with
  | teams_getByName _ _ => λ g, (inl server_error, g)
  | c' => api c'
  end.

(** An organisation in which the team [slug] is deleted by somebody else
    right after its members have been listed. *)
Definition api_vanishing (slug : string) : client organisation := λ c,
  match c as c' return organisation → (Error + response c') * organisation with
  | teams_listMembersInOrg o t => λ g,
      ((api (teams_listMembersInOrg o t) g).1,
       if decide (t = slug) then with_teams g (delete slug (teams g)) else g)
  | c' => api c'
  end.

(** A client that rejects every request to modify the labels of a pull
    request. *)
Definition api_read_only_labels : client organisation := λ c,
  match c as c' return organisation → (Error + response c') * organisation with
  | issues_addLabels _ _ _ _ => λ g, (inl (mkError "Forbidden" (Some 403%Z)), g)
  | c' => api c'
  end.

(** An organisation without teams whose service account is [svc-bot], a
    pull request of [dave] that changes two files, and team data files. *)
Definition acme : organisation :=
  {| authenticated := "svc-bot"; teams := ∅;
     changed_files := ["docs/readme.md"; "action.yml"]; applied_labels := [] |}.

Definition acme_with (team : string) (ms : list string) : organisation :=
  with_teams acme {[ team := ms ]}.

Definition infra : team_data := {| team_name := "infra"; team_slug := "infra" |}.

Definition pr_context : Context :=
  {| owner := "acme"; repo := "widgets"; sha := "c0ffee";
     payload_pull_request := Some {| number := 7; user := {| login := "dave" |} |} |}.


Definition team_file (ms : list string) : string → Error + list (string * team_entry) :=
  λ _, inr [("infra", {| members := Some ((λ u, {| github := u |}) <$> ms); short := None |})].

Definition Buffer_toString (content encoding : string) : string := content.

(** A configuration file with glob rules and team labels. *)
Definition configuration (rules : list (string * value))
    (team_labels : list (string * list string)) : string → Error + config :=
  λ _, inr {| file_pattern_labels := rules; teams_configuration_location := None;
              team_labels := Some team_labels |}.

(** The inputs of a workflow that supplies both inputs of the labeller, and
    of one that supplies no token. *)
Definition inputs (name : string) (required : bool) : Error + string :=
  if decide (name = "repo-token") then inr "secret"
  else if decide (name = "configuration-path") then inr "labeler.yml"
  else inr "".

Definition inputs_without_token (name : string) (required : bool) : Error + string :=
  if decide (name = "repo-token")
  then (if required then inl (mkError "Input required and not supplied: repo-token" None)
        else inr "")
  else inputs name required.

(** The organisation after a computation has run against [acme]. *)
Definition final_of {A} (m : io A) : organisation := final api m acme.

End Reference.

(** ** Plans of requests *)

(** Two computations that no client can tell apart. *)
Definition io_equiv {A} (m m' : io A) : Prop :=
  ∀ S (h : client S) (s : S), exec h m s = exec h m' s.

Infix "≈" := io_equiv (at level 70).

(** The straight-line computation that issues the requests of a plan in
    order and throws at the first rejection. *)
Fixpoint issue (plan : list call) : io unit :=
  match plan with
  | [] => Return tt
  | c :: plan' => request c ;;; issue plan'
  end.

(** ** Vocabulary of the specification *)

(** The MembershipDiff of the specification, on sets of usernames. *)
Record MembershipDiff := { toAdd : gset string; toRemove : gset string }.

Definition diff (desired current : gset string) : MembershipDiff :=
  {| toAdd := desired ∖ current; toRemove := current ∖ desired |}.

(** The usernames that the removal and the addition requests of a trace name. *)
Definition removals (t : list call) : list string :=
  omap (λ c, match c with teams_removeMembershipInOrg _ _ u => Some u | _ => None end) t.

Definition additions (t : list call) : list string :=
  omap (λ c, match c with teams_addOrUpdateMembershipInOrg _ _ u => Some u | _ => None end) t.

(** The requests of [reconcileMembers] when none is rejected. *)
Definition reconcilePlan (org authenticatedUserLogin teamName teamSlug : string)
    (desiredMembers : list string)
    (existingTeam : option team_data) (existingMembers : list string) : list call :=
  match existingTeam with
  | Some _ =>
      teams_removeMembershipInOrg org teamSlug <$>
        filter (λ u, u ∉ desiredMembers) existingMembers
  | None =>
      [teams_create org teamName "closed";
       teams_removeMembershipInOrg org teamSlug authenticatedUserLogin]
  end ++
  (teams_addOrUpdateMembershipInOrg org teamSlug <$>
     filter (λ u, u ∉ existingMembers) desiredMembers).

(** A computation in which the rejection of a request among [P] is never
    caught: the computation throws that very error. *)
Definition propagating (P : call → Prop) {A} (m : io A) : Prop :=
  ∀ S (h : client S) (s : S) (c : call) (e : Error),
    (c, Some e) ∈ log h m s → P c → outcome h m s = inl e.

(** Every request but the two lookups of [getExistingTeamAndMembers]. *)
Definition not_a_lookup (c : call) : Prop :=
  match c with
  | teams_getByName _ _ | teams_listMembersInOrg _ _ => False
  | _ => True
  end.

(** The requests of [labelPullRequest] when none is rejected, from the labels
    that the globs give and the labels that the teams give. *)
Definition labelPlan (context : Context) (prNumber : Z)
    (globbed additionalLabels : list string) : list call :=
  (if decide (additionalLabels = []) then []
   else [pulls_update (owner context) (repo context) prNumber "closed"]) ++
  (if decide (globbed ++ additionalLabels = []) then []
   else [issues_addLabels (owner context) (repo context) prNumber
           (stripHash <$> (globbed ++ additionalLabels))]) ++
  (if decide (additionalLabels = []) then []
   else [pulls_update (owner context) (repo context) prNumber "open"]).

(** The set of labels of a classification, when it does not throw. *)
Definition label_set (r : Error + list string) : option (gset string) :=
  match r with
  | inl _ => None
  | inr labels => Some (list_to_set labels)
  end.

(** A character occurs in a string. *)
Fixpoint occurs (c : ascii) (l : string) : Prop :=
  match l with
  | EmptyString => False
  | String d l' => c = d ∨ occurs c l'
  end.

(** The rule values that [getLabelGlobMapFromObject] accepts: a string or an
    array, of anything. *)
Definition accepted (v : value) : Prop :=
  match v with
  | VString _ | VArray _ => True
  | _ => False
  end.

(** A sequence of strings, as the specification asks of a rule value that
    is not a string. *)
Definition string_array (v : value) : Prop :=
  match v with
  | VArray elements => Forall (λ x, ∃ s, x = VString s) elements
  | _ => False
  end.

(** A computation in which a rejected request among [P] ends everything:
    it is the last request and its error is thrown. *)
Definition strict (P : call → Prop) {A} (m : io A) : Prop :=
  ∀ S (h : client S) (s : S) (i : nat) (c : call) (e : Error),
    log h m s !! i = Some (c, Some e) → P c →
    outcome h m s = inl e ∧ length (log h m s) = Datatypes.S i.

(** A computation all of whose requests are among [Q]. *)
Definition within (Q : call → Prop) {A} (m : io A) : Prop :=
  ∀ S (h : client S) (s : S) (c : call), c ∈ trace h m s → Q c.

(** The members of the team [slug] after a request, when removals and
    additions take effect as on a set. *)
Definition apply_request (slug : string) (members : gset string) (c : call) : gset string :=
  match c with
  | teams_removeMembershipInOrg _ t u => if decide (t = slug) then members ∖ {[u]} else members
  | teams_addOrUpdateMembershipInOrg _ t u =>
      if decide (t = slug) then members ∪ {[u]} else members
  | _ => members
  end.

Definition apply_requests (slug : string) (members : gset string) (t : list call)
  : gset string :=
  foldl (apply_request slug) members t.

(** The requests that concern the teams [names] of the organisation [org]. *)
Definition team_request (slugify : string → string) (org : string) (names : list string)
    (c : call) : Prop :=
  match c with
  | teams_getByName o t | teams_listMembersInOrg o t
  | teams_removeMembershipInOrg o t _ | teams_addOrUpdateMembershipInOrg o t _ =>
      o = org ∧ t ∈ slugify <$> names
  | teams_create o n p => o = org ∧ n ∈ names ∧ p = "closed"
  | _ => False
  end.

(** The globs of a rule value that [getLabelGlobMapFromObject] accepts. *)
Definition globs_of (v : value) : list value :=
  match v with
  | VArray globs => globs
  | _ => [v]
  end.

(** The label and the user names that a team of the external teams file
    stands for: [short || teamName] and the [github] names of its members. *)
Definition team_label (team : string * team_entry) : string :=
  match short team.2 with
  | Some s => if decide (s = "") then team.1 else s
  | None => team.1
  end.

Definition team_usernames (team : string * team_entry) : list string :=
  github <$> default [] (members team.2).

(** A pattern that [Minimatch] compiles and that matches none of the files. *)
Definition matches_none (Minimatch : value → Error + (string → bool))
    (changedFiles : list string) (glob : value) : Prop :=
  ∃ matcher, Minimatch glob = inr matcher ∧ existsb matcher changedFiles = false.

(** ** Running computations: general facts *)

Lemma issue_cons (c : call) (plan : list call) :
  issue (c :: plan) = (request c ;;; issue plan).
Proof. reflexivity. Qed.

Lemma forOf_cons {A} (x : A) (l : list A) (body : A → io unit) :
  forOf (x :: l) body = (body x ;;; forOf l body).
Proof. reflexivity. Qed.

Section exec_lemmas.
Context {S : Type} (h : client S).

Lemma exec_bind {A B} (m : io A) (f : A → io B) (s : S) :
  exec h (bind m f) s =
    match (exec h m s).2 with
    | inl e => ((exec h m s).1.1, (exec h m s).1.2, inl e)
    | inr a =>
        let x := exec h (f a) (exec h m s).1.2 in
        ((exec h m s).1.1 ++ x.1.1, x.1.2, x.2)
    end.
Proof.
  revert s. induction m as [a|e|c k IH]; intros s; simpl.
  - by destruct (exec h (f a) s) as [[??]?].
  - done.
  - rewrite IH. by destruct (exec h (k (h c s).1) (h c s).2).2.
Qed.

Lemma exec_try_catch {A} (m : io A) (handler : Error → io A) (s : S) :
  exec h (try_catch m handler) s =
    match (exec h m s).2 with
    | inl e =>
        let x := exec h (handler e) (exec h m s).1.2 in
        ((exec h m s).1.1 ++ x.1.1, x.1.2, x.2)
    | inr a => ((exec h m s).1.1, (exec h m s).1.2, inr a)
    end.
Proof.
  revert s. induction m as [a|e|c k IH]; intros s; simpl.
  - done.
  - by destruct (exec h (handler e) s) as [[??]?].
  - rewrite IH. by destruct (exec h (k (h c s).1) (h c s).2).2.
Qed.

Lemma exec_request (c : call) (s : S) :
  exec h (request c) s =
    ([(c, rejection (h c s).1)], (h c s).2,
     match (h c s).1 with inl e => inl e | inr _ => inr tt end).
Proof. simpl. by destruct (h c s).1. Qed.

Lemma exec_await (c : call) (s : S) :
  exec h (await c) s = ([(c, rejection (h c s).1)], (h c s).2, (h c s).1).
Proof. simpl. by destruct (h c s).1. Qed.

Lemma exec_liftE {A} (r : Error + A) (s : S) : exec h (liftE r) s = ([], s, r).
Proof. by destruct r. Qed.

(** A plan is carried out up to its first rejected request. *)
Lemma trace_issue_prefix (plan : list call) (s : S) :
  trace h (issue plan) s `prefix_of` plan.
Proof.
  revert s. induction plan as [|c plan IH]; intros s.
  - done.
  - unfold trace, log in *. rewrite issue_cons, exec_bind, exec_request. simpl.
    destruct (h c s).1; simpl.
    + by apply prefix_cons, prefix_nil.
    + by apply prefix_cons, IH.
Qed.

Lemma issue_returns (plan : list call) (s : S) (u : unit) :
  outcome h (issue plan) s = inr u →
  log h (issue plan) s = (λ c, (c, None)) <$> plan.
Proof.
  revert s. induction plan as [|c plan IH]; intros s.
  - done.
  - unfold outcome, log in *. rewrite issue_cons, exec_bind, exec_request. simpl.
    destruct (h c s).1; simpl; [done|].
    intros Hout. by rewrite (IH _ Hout).
Qed.

Lemma issue_rejected (plan : list call) (s : S) (c : call) (e : Error) :
  (c, Some e) ∈ log h (issue plan) s → outcome h (issue plan) s = inl e.
Proof.
  revert s. induction plan as [|c' plan IH]; intros s.
  - by intros ?%elem_of_nil.
  - unfold outcome, log in *. rewrite issue_cons, exec_bind, exec_request. simpl.
    destruct (h c' s).1 as [e'|d]; simpl.
    + intros Hin%list_elem_of_singleton. congruence.
    + intros [Hin|Hin]%elem_of_cons; [done|]. by apply IH.
Qed.

End exec_lemmas.

Lemma equiv_bind {A B} (m m' : io A) (f f' : A → io B) :
  m ≈ m' → (∀ a, f a ≈ f' a) → bind m f ≈ bind m' f'.
Proof.
  intros Hm Hf S h s. rewrite !exec_bind, Hm.
  destruct (exec h m' s).2; [done|]. by rewrite Hf.
Qed.

Lemma issue_app (p q : list call) : (issue p ;;; issue q) ≈ issue (p ++ q).
Proof.
  intros S h s. revert s. induction p as [|c p IH]; intros s.
  - simpl. by destruct (exec h (issue q) s) as [[??]?].
  - rewrite !issue_cons, !exec_bind, exec_request. simpl.
    destruct (h c s).1; simpl; [done|].
    rewrite <-IH, exec_bind.
    by destruct (exec h (issue p) (h c s).2).2.
Qed.

(** A loop that guards one request per element carries out the plan of the
    elements that pass the guard. *)
Lemma forOf_issue {A} (guard : A → bool) (c : A → call) (l : list A) :
  forOf l (λ x, if guard x then request (c x) else Return tt)
  ≈ issue (c <$> filter (λ x, guard x = true) l).
Proof.
  intros S h s. revert s. induction l as [|x l IH]; intros s; [done|].
  rewrite forOf_cons, filter_cons. destruct (guard x) eqn:Hg.
  - rewrite decide_True by done. rewrite fmap_cons, issue_cons.
    rewrite !exec_bind. destruct (exec h (request (c x)) s).2; [done|]. by rewrite IH.
  - rewrite decide_False by done. rewrite exec_bind. simpl. rewrite IH.
    by destruct (exec h _ s) as [[??]?].
Qed.

Lemma equiv_refl {A} (m : io A) : m ≈ m.
Proof. by intros S h s. Qed.

Lemma equiv_trans {A} (m1 m2 m3 : io A) : m1 ≈ m2 → m2 ≈ m3 → m1 ≈ m3.
Proof. intros H12 H23 S h s. by rewrite H12. Qed.

Lemma bind_return_tt (m : io unit) : (m ;;; Return tt) ≈ m.
Proof.
  intros S h s. rewrite exec_bind. simpl.
  destruct (exec h m s) as [[l s'] [e|[]]]; simpl; [done|]. by rewrite app_nil_r.
Qed.

(** What a client sees of a computation, through an equivalent plan. *)
Lemma equiv_trace {A} (m m' : io A) {S} (h : client S) (s : S) :
  m ≈ m' → trace h m s = trace h m' s.
Proof. intros Heq. unfold trace, log. by rewrite Heq. Qed.

Lemma equiv_log {A} (m m' : io A) {S} (h : client S) (s : S) :
  m ≈ m' → log h m s = log h m' s.
Proof. intros Heq. unfold log. by rewrite Heq. Qed.

Lemma equiv_outcome {A} (m m' : io A) {S} (h : client S) (s : S) :
  m ≈ m' → outcome h m s = outcome h m' s.
Proof. intros Heq. unfold outcome. by rewrite Heq. Qed.

Lemma trace_issue_returns {S} (h : client S) (plan : list call) (s : S) (u : unit) :
  outcome h (issue plan) s = inr u → trace h (issue plan) s = plan.
Proof.
  intros Hout. unfold trace. rewrite (issue_returns h plan s u Hout).
  rewrite <-list_fmap_compose. apply list_fmap_id.
Qed.

(** ** The team synchroniser: membership reconciliation *)

Lemma filter_not_includes (l k : list string) :
  filter (λ u, negb (includes l u) = true) k = filter (λ u, u ∉ l) k.
Proof.
  apply list_filter_iff. intros u. unfold includes.
  rewrite negb_true_iff, bool_decide_eq_false. done.
Qed.

Lemma reconcileMembers_issue (org auth name slug : string) (desired : list string)
    (existingTeam : option team_data) (existing : list string) :
  TeamSync.reconcileMembers org auth name slug desired existingTeam existing
  ≈ issue (reconcilePlan org auth name slug desired existingTeam existing).
Proof.
  unfold TeamSync.reconcileMembers, reconcilePlan.
  eapply equiv_trans; [|apply issue_app].
  apply equiv_bind.
  - destruct existingTeam as [team|].
    + rewrite <-filter_not_includes.
      apply (forOf_issue (λ u, negb (includes desired u))
               (teams_removeMembershipInOrg org slug)).
    + unfold TeamSync.createTeamWithNoMembers. rewrite !issue_cons.
      apply equiv_bind; [apply equiv_refl|]. intros _.
      apply equiv_trans with (request (teams_removeMembershipInOrg org slug auth));
        [apply equiv_refl|].
      intros S h s. symmetry. apply bind_return_tt.
  - intros _. rewrite <-filter_not_includes.
    apply (forOf_issue (λ u, negb (includes existing u))
             (teams_addOrUpdateMembershipInOrg org slug)).
Qed.

Lemma removals_fmap_remove (org slug : string) (l : list string) :
  removals (teams_removeMembershipInOrg org slug <$> l) = l.
Proof. induction l as [|u l IH]; [done|]. cbn. f_equal. apply IH. Qed.

Lemma removals_fmap_add (org slug : string) (l : list string) :
  removals (teams_addOrUpdateMembershipInOrg org slug <$> l) = [].
Proof. by induction l. Qed.

Lemma additions_fmap_add (org slug : string) (l : list string) :
  additions (teams_addOrUpdateMembershipInOrg org slug <$> l) = l.
Proof. induction l as [|u l IH]; [done|]. cbn. f_equal. apply IH. Qed.

Lemma additions_fmap_remove (org slug : string) (l : list string) :
  additions (teams_removeMembershipInOrg org slug <$> l) = [].
Proof. by induction l. Qed.

Lemma removals_prefix (t plan : list call) (u : string) :
  t `prefix_of` plan → u ∈ removals t → u ∈ removals plan.
Proof.
  intros [k ->] Hin. unfold removals. rewrite omap_app. apply elem_of_app. by left.
Qed.

Lemma additions_prefix (t plan : list call) (u : string) :
  t `prefix_of` plan → u ∈ additions t → u ∈ additions plan.
Proof.
  intros [k ->] Hin. unfold additions. rewrite omap_app. apply elem_of_app. by left.
Qed.

Lemma stale_set (desired existing : list string) :
  list_to_set (filter (λ u, u ∉ desired) existing)
  =@{gset string} list_to_set existing ∖ list_to_set desired.
Proof.
  apply set_eq. intros u.
  rewrite elem_of_list_to_set, list_elem_of_filter, elem_of_difference,
    !elem_of_list_to_set. tauto.
Qed.

Lemma filter_nothing {A} (P : A → Prop) `{!∀ x, Decision (P x)} (l : list A) :
  (∀ x, x ∈ l → ¬ P x) → filter P l = [].
Proof.
  induction l as [|x l IH]; intros Hl; [done|].
  rewrite filter_cons, decide_False by (apply Hl; left).
  apply IH. intros y Hy. apply Hl. by right.
Qed.

Lemma filter_not_in_nil (l : list string) : filter (λ u, u ∉ []) l = l.
Proof.
  induction l as [|u l IH]; [done|].
  rewrite filter_cons, decide_True by apply not_elem_of_nil. by rewrite IH.
Qed.

Lemma reconcile_trace_prefix (org auth name slug : string) (desired : list string)
    (existingTeam : option team_data) (existing : list string)
    {S : Type} (h : client S) (s : S) :
  trace h (TeamSync.reconcileMembers org auth name slug desired existingTeam existing) s
  `prefix_of` reconcilePlan org auth name slug desired existingTeam existing.
Proof.
  rewrite (equiv_trace _ _ h s (reconcileMembers_issue _ _ _ _ _ _ _)).
  apply trace_issue_prefix.
Qed.

Lemma reconcile_trace_returns (org auth name slug : string) (desired : list string)
    (existingTeam : option team_data) (existing : list string)
    {S : Type} (h : client S) (s : S) :
  outcome h (TeamSync.reconcileMembers org auth name slug desired existingTeam existing) s
    = inr tt →
  trace h (TeamSync.reconcileMembers org auth name slug desired existingTeam existing) s
    = reconcilePlan org auth name slug desired existingTeam existing.
Proof.
  intros Hout. rewrite (equiv_trace _ _ h s (reconcileMembers_issue _ _ _ _ _ _ _)).
  apply (trace_issue_returns h _ s tt).
  by rewrite <-(equiv_outcome _ _ h s (reconcileMembers_issue _ _ _ _ _ _ _)).
Qed.

Lemma removals_update_plan (org auth name slug : string) (desired existing : list string)
    (team : team_data) :
  removals (reconcilePlan org auth name slug desired (Some team) existing)
  = filter (λ u, u ∉ desired) existing.
Proof.
  unfold reconcilePlan, removals. rewrite omap_app.
  fold (removals (teams_removeMembershipInOrg org slug <$> filter (λ u, u ∉ desired) existing)).
  fold (removals (teams_addOrUpdateMembershipInOrg org slug <$> filter (λ u, u ∉ existing) desired)).
  by rewrite removals_fmap_remove, removals_fmap_add, app_nil_r.
Qed.

Lemma additions_update_plan (org auth name slug : string) (desired existing : list string)
    (team : team_data) :
  additions (reconcilePlan org auth name slug desired (Some team) existing)
  = filter (λ u, u ∉ existing) desired.
Proof.
  unfold reconcilePlan, additions. rewrite omap_app.
  fold (additions (teams_removeMembershipInOrg org slug <$> filter (λ u, u ∉ desired) existing)).
  fold (additions (teams_addOrUpdateMembershipInOrg org slug <$> filter (λ u, u ∉ existing) desired)).
  by rewrite additions_fmap_remove, additions_fmap_add.
Qed.

(** The claim C1 fails on a team that does not exist.  With alice as the
    only desired member and no current member, the creator svc-bot is in
    neither set of [diff], and the run removes it. *)
Lemma creator_in_neither_set_is_removed :
  let d := diff (list_to_set ["alice"]) (list_to_set []) in
  ("svc-bot" ∉ toAdd d) ∧ ("svc-bot" ∉ toRemove d)
  ∧ log Reference.api
      (TeamSync.run Reference.slugify (Reference.team_file ["alice"])
         Reference.Buffer_toString Reference.pr_context "teams.json")
      Reference.acme
    = [(users_getAuthenticated, None);
       (repos_getContents "acme" "widgets" "teams.json" "c0ffee", None);
       (teams_getByName "acme" "infra", Some Reference.not_found);
       (teams_create "acme" "infra" "closed", None);
       (teams_removeMembershipInOrg "acme" "infra" "svc-bot", None);
       (teams_addOrUpdateMembershipInOrg "acme" "infra" "alice", None)].
Proof.
  intros d. split_and!.
  - unfold d, diff. cbn [toAdd]. intros [Hin _]%elem_of_difference.
    apply elem_of_list_to_set, list_elem_of_singleton in Hin. discriminate Hin.
  - unfold d, diff. cbn [toRemove]. intros [Hin _]%elem_of_difference.
    by apply elem_of_list_to_set, elem_of_nil in Hin.
  - vm_compute. reflexivity.
Qed.

(** C1, amended. On a team that exists, the requests of [reconcileMembers]
    are the removals of the existing members that are not desired followed by
    the additions of the desired members that do not exist yet, cut at the
    first rejected request and complete when the reconciliation returns.  As
    sets of usernames these are [toRemove = current ∖ desired] and
    [toAdd = desired ∖ current] of [diff], which are disjoint; a username in
    neither set is named by no removal and by no addition; and when the
    desired and the current members are the same set, no request is issued
    at all.  On a team that does not exist the current members are none: the
    requests are the two of [createTeamWithNoMembers], the second of which
    removes the creator, followed by the additions of [toAdd = desired ∖ ∅],
    complete when the reconciliation returns; [toRemove] is empty, and a
    username in neither set is named by no addition and, unless it is the
    creator, by no removal. *)
Theorem reconcile_is_diff (org auth name slug : string) (desired existing : list string)
    (team : team_data) {S : Type} (h : client S) (s : S) :
  let m := TeamSync.reconcileMembers org auth name slug desired (Some team) existing in
  let d := diff (list_to_set desired) (list_to_set existing) in
  let plan :=
    (teams_removeMembershipInOrg org slug <$> filter (λ u, u ∉ desired) existing) ++
    (teams_addOrUpdateMembershipInOrg org slug <$> filter (λ u, u ∉ existing) desired) in
  let m0 := TeamSync.reconcileMembers org auth name slug desired None [] in
  let d0 := diff (list_to_set desired) (list_to_set []) in
  let plan0 := teams_addOrUpdateMembershipInOrg org slug <$> desired in
  (trace h m s `prefix_of` plan)
  ∧ (outcome h m s = inr tt → trace h m s = plan)
  ∧ list_to_set (additions plan) = toAdd d
  ∧ list_to_set (removals plan) = toRemove d
  ∧ toAdd d ∩ toRemove d = ∅
  ∧ (∀ u, u ∉ toAdd d → u ∉ toRemove d →
       (u ∉ removals (trace h m s)) ∧ (u ∉ additions (trace h m s)))
  ∧ (list_to_set desired =@{gset string} list_to_set existing → trace h m s = [])
  ∧ (trace h m0 s `prefix_of`
       teams_create org name "closed" :: teams_removeMembershipInOrg org slug auth :: plan0)
  ∧ (outcome h m0 s = inr tt →
     trace h m0 s
     = teams_create org name "closed" :: teams_removeMembershipInOrg org slug auth :: plan0)
  ∧ list_to_set (additions plan0) = toAdd d0
  ∧ toRemove d0 = ∅
  ∧ toAdd d0 ∩ toRemove d0 = ∅
  ∧ (∀ u, u ∉ toAdd d0 → u ∉ toRemove d0 →
       (u ∉ additions (trace h m0 s)) ∧ (u ≠ auth → u ∉ removals (trace h m0 s))).
Proof.
  intros m d plan m0 d0 plan0.
  change plan with (reconcilePlan org auth name slug desired (Some team) existing).
  assert (Hprefix := reconcile_trace_prefix org auth name slug desired (Some team) existing h s).
  fold m in Hprefix.
  assert (Hadd : list_to_set (additions (reconcilePlan org auth name slug desired
                                           (Some team) existing)) = toAdd d).
  { rewrite additions_update_plan. apply stale_set. }
  assert (Hrem : list_to_set (removals (reconcilePlan org auth name slug desired
                                          (Some team) existing)) = toRemove d).
  { rewrite removals_update_plan. apply stale_set. }
  assert (Hplan0 : reconcilePlan org auth name slug desired None []
                   = teams_create org name "closed" ::
                     teams_removeMembershipInOrg org slug auth :: plan0).
  { unfold reconcilePlan. by rewrite filter_not_in_nil. }
  assert (Hprefix0 := reconcile_trace_prefix org auth name slug desired None [] h s).
  fold m0 in Hprefix0. rewrite Hplan0 in Hprefix0.
  assert (Hadd0 : list_to_set (additions plan0) = toAdd d0).
  { unfold plan0. rewrite additions_fmap_add. simpl.
    apply set_eq. intros u. rewrite elem_of_difference, elem_of_list_to_set.
    split; [|tauto]. intros Hu. split; [done|]. apply not_elem_of_empty. }
  assert (Hrem0 : toRemove d0 = ∅).
  { simpl. apply set_eq. intros u. rewrite elem_of_difference.
    split; [|by intros ?%not_elem_of_empty]. by intros [?%not_elem_of_empty _]. }
  split_and!; try done.
  - apply reconcile_trace_returns.
  - simpl. apply elem_of_equiv_empty_L. intros u.
    rewrite elem_of_intersection, !elem_of_difference. tauto.
  - intros u Hu1 Hu2. split.
    + intros Hin%(removals_prefix _ _ _ Hprefix).
      apply Hu2. rewrite <-Hrem. by apply elem_of_list_to_set.
    + intros Hin%(additions_prefix _ _ _ Hprefix).
      apply Hu1. rewrite <-Hadd. by apply elem_of_list_to_set.
  - intros Heq. apply prefix_nil_inv.
    replace (reconcilePlan org auth name slug desired (Some team) existing)
      with (@nil call) in Hprefix; [done|].
    unfold reconcilePlan. rewrite !filter_nothing; [done| |].
    + intros u Hu Hn. apply Hn. apply (elem_of_list_to_set (C:=gset string)).
      rewrite <-Heq. by apply elem_of_list_to_set.
    + intros u Hu Hn. apply Hn. apply (elem_of_list_to_set (C:=gset string)).
      rewrite Heq. by apply elem_of_list_to_set.
  - intros Hout. rewrite <-Hplan0. by apply reconcile_trace_returns.
  - rewrite Hrem0. apply elem_of_equiv_empty_L. intros u.
    rewrite elem_of_intersection. by intros [_ ?%not_elem_of_empty].
  - intros u Hu1 _. split.
    + intros Hin%(additions_prefix _ _ _ Hprefix0).
      change (u ∈ additions plan0) in Hin.
      apply Hu1. rewrite <-Hadd0. by apply elem_of_list_to_set.
    + intros Hne Hin%(removals_prefix _ _ _ Hprefix0).
      change (u ∈ auth :: removals plan0) in Hin.
      unfold plan0 in Hin. rewrite removals_fmap_add in Hin.
      by apply list_elem_of_singleton in Hin.
Qed.

(** A witness of C1, amended: desired alice and bob, current bob and carol
    on a team that exists; desired alice on a team that does not. *)
Lemma reconcile_is_diff_witness :
  trace Reference.api
    (TeamSync.reconcileMembers "acme" "svc-bot" "infra" "infra" ["alice"; "bob"]
       (Some Reference.infra) ["bob"; "carol"])
    (Reference.acme_with "infra" ["bob"; "carol"])
  = [teams_removeMembershipInOrg "acme" "infra" "carol";
     teams_addOrUpdateMembershipInOrg "acme" "infra" "alice"]
  ∧ trace Reference.api
      (TeamSync.reconcileMembers "acme" "svc-bot" "infra" "infra" ["alice"; "bob"] None [])
      Reference.acme
    = [teams_create "acme" "infra" "closed";
       teams_removeMembershipInOrg "acme" "infra" "svc-bot";
       teams_addOrUpdateMembershipInOrg "acme" "infra" "alice";
       teams_addOrUpdateMembershipInOrg "acme" "infra" "bob"].
Proof.
  split.
  - refine (proj1 (proj2 (reconcile_is_diff "acme" "svc-bot" "infra" "infra"
              ["alice"; "bob"] ["bob"; "carol"] Reference.infra Reference.api
              (Reference.acme_with "infra" ["bob"; "carol"]))) _).
    vm_compute. reflexivity.
  - refine (proj1 (proj2 (proj2 (proj2 (proj2 (proj2 (proj2 (proj2 (proj2
              (reconcile_is_diff "acme" "svc-bot" "infra" "infra"
                 ["alice"; "bob"] ["bob"; "carol"] Reference.infra Reference.api
                 Reference.acme))))))))) _).
    vm_compute. reflexivity.
Defined.

(** ** The team synchroniser: creating a team *)

(** The claim C3 fails where the creator is a desired member: the creator
    is removed there as well. *)
Lemma creator_removed_although_desired :
  "svc-bot" ∈ ["svc-bot"] ∧
  trace Reference.api
    (TeamSync.reconcileMembers "acme" "svc-bot" "infra" "infra" ["svc-bot"] None [])
    Reference.acme
  = [teams_create "acme" "infra" "closed";
     teams_removeMembershipInOrg "acme" "infra" "svc-bot";
     teams_addOrUpdateMembershipInOrg "acme" "infra" "svc-bot"].
Proof. split; [by left|]. vm_compute. reflexivity. Qed.

(** C3, amended. On the creation path the requests are [teams.create], then
    the removal of the authenticated identity, whether or not it is a desired
    member, then the addition of every desired member (which adds a desired
    creator back).  On the update path no team is created and every removal
    names an existing member that is not desired.  For desired alice and
    creator svc-bot the created team ends with alice as its only member, and
    a desired creator ends as a member. *)
Theorem creation_removes_creator (org auth name slug : string) (desired : list string)
    {S : Type} (h : client S) (s : S) :
  let create := TeamSync.reconcileMembers org auth name slug desired None [] in
  let plan :=
    teams_create org name "closed" :: teams_removeMembershipInOrg org slug auth ::
    (teams_addOrUpdateMembershipInOrg org slug <$> desired) in
  (trace h create s `prefix_of` plan)
  ∧ (outcome h create s = inr tt → trace h create s = plan)
  ∧ (∀ team existing,
       let update := TeamSync.reconcileMembers org auth name slug desired (Some team) existing in
       (∀ c, c ∈ trace h update s → ∀ o n p, c ≠ teams_create o n p)
       ∧ (∀ u, u ∈ removals (trace h update s) → u ∈ existing ∧ u ∉ desired))
  ∧ Reference.teams (Reference.final_of
             (TeamSync.reconcileMembers "acme" "svc-bot" "infra" "infra" ["alice"] None []))
      !! "infra" = Some ["alice"]
  ∧ Reference.teams (Reference.final_of
             (TeamSync.reconcileMembers "acme" "svc-bot" "infra" "infra"
                ["alice"; "svc-bot"] None []))
      !! "infra" = Some ["alice"; "svc-bot"].
Proof.
  intros create plan.
  pose proof (reconcileMembers_issue org auth name slug desired None []) as Hm.
  fold create in Hm. unfold reconcilePlan in Hm. rewrite filter_not_in_nil in Hm.
  change (issue _) with (issue plan) in Hm.
  split_and!.
  - rewrite (equiv_trace _ _ h s Hm). apply trace_issue_prefix.
  - intros Hout. rewrite (equiv_trace _ _ h s Hm).
    apply (trace_issue_returns h plan s tt). by rewrite <-(equiv_outcome _ _ h s Hm).
  - intros team existing update.
    assert (Hprefix := reconcile_trace_prefix org auth name slug desired (Some team)
                         existing h s).
    fold update in Hprefix. split.
    + intros c Hc o n p ->. apply (elem_of_prefix _ _ _ Hc) in Hprefix.
      apply elem_of_app in Hprefix as [Hin|Hin];
        apply list_elem_of_fmap in Hin as (u & Hu & _); discriminate Hu.
    + intros u Hu. apply (removals_prefix _ _ _ Hprefix) in Hu.
      rewrite removals_update_plan in Hu.
      apply list_elem_of_filter in Hu. tauto.
  - vm_compute. reflexivity.
  - vm_compute. reflexivity.
Qed.

(** A witness of C3, amended: the creation sequence of the scenario. *)
Lemma creation_removes_creator_witness :
  trace Reference.api
    (TeamSync.reconcileMembers "acme" "svc-bot" "infra" "infra" ["alice"] None [])
    Reference.acme
  = [teams_create "acme" "infra" "closed";
     teams_removeMembershipInOrg "acme" "infra" "svc-bot";
     teams_addOrUpdateMembershipInOrg "acme" "infra" "alice"].
Proof.
  refine (proj1 (proj2 (creation_removes_creator "acme" "svc-bot" "infra" "infra"
            ["alice"] Reference.api Reference.acme)) _).
  vm_compute. reflexivity.
Defined.

(** ** The team synchroniser: rejected requests *)

Lemma log_bind {A B} (m : io A) (f : A → io B) {S} (h : client S) (s : S) :
  log h (bind m f) s =
    log h m s ++ match outcome h m s with
                 | inl _ => []
                 | inr a => log h (f a) (final h m s)
                 end.
Proof.
  unfold log, outcome, final. rewrite exec_bind.
  destruct (exec h m s).2; simpl; [by rewrite app_nil_r|done].
Qed.

Lemma outcome_bind {A B} (m : io A) (f : A → io B) {S} (h : client S) (s : S) :
  outcome h (bind m f) s =
    match outcome h m s with
    | inl e => inl e
    | inr a => outcome h (f a) (final h m s)
    end.
Proof. unfold outcome, final. rewrite exec_bind. by destruct (exec h m s).2. Qed.

Lemma propagating_return (P : call → Prop) {A} (a : A) : propagating P (Return a).
Proof. by intros S h s c e ?%elem_of_nil. Qed.

Lemma propagating_throw (P : call → Prop) {A} (e : Error) : propagating P (@Throw A e).
Proof. by intros S h s c e' ?%elem_of_nil. Qed.

Lemma propagating_liftE (P : call → Prop) {A} (r : Error + A) : propagating P (liftE r).
Proof. destruct r; [apply propagating_throw|apply propagating_return]. Qed.

Lemma propagating_await (P : call → Prop) (c : call) : propagating P (await c).
Proof.
  intros S h s c' e. unfold log, outcome. rewrite exec_await. simpl.
  intros Hin%list_elem_of_singleton _. destruct (h c s).1; simpl in Hin; congruence.
Qed.

Lemma propagating_bind (P : call → Prop) {A B} (m : io A) (f : A → io B) :
  propagating P m → (∀ a, propagating P (f a)) → propagating P (bind m f).
Proof.
  intros Hm Hf S h s c e. rewrite log_bind, outcome_bind.
  intros [Hin|Hin]%elem_of_app HP.
  - by rewrite (Hm _ h s c e Hin HP).
  - destruct (outcome h m s) as [e'|a]; [by apply elem_of_nil in Hin|].
    by apply (Hf a _ h _ c e).
Qed.

Lemma propagating_equiv (P : call → Prop) {A} (m m' : io A) :
  m ≈ m' → propagating P m' → propagating P m.
Proof.
  intros Heq Hm S h s c e. rewrite (equiv_log _ _ h s Heq), (equiv_outcome _ _ h s Heq).
  apply Hm.
Qed.

Lemma propagating_issue (P : call → Prop) (plan : list call) : propagating P (issue plan).
Proof. intros S h s c e Hin _. by apply (issue_rejected h plan s c). Qed.

Lemma propagating_forOf (P : call → Prop) {A} (l : list A) (body : A → io unit) :
  (∀ x, propagating P (body x)) → propagating P (forOf l body).
Proof.
  intros Hbody. induction l as [|x l IH]; [apply propagating_return|].
  rewrite forOf_cons. apply propagating_bind; [apply Hbody|]. by intros _.
Qed.

(** What [getExistingTeamAndMembers] returns, from the answers of the client. *)
Lemma getExistingTeamAndMembers_outcome (org slug : string) {S} (h : client S) (s : S) :
  outcome h (TeamSync.getExistingTeamAndMembers org slug) s =
    inr match (h (teams_getByName org slug) s).1 with
        | inl _ => (None, [])
        | inr team =>
            match (h (teams_listMembersInOrg org slug) (h (teams_getByName org slug) s).2).1 with
            | inl _ => (None, [])
            | inr ms => (Some team, login <$> ms)
            end
        end.
Proof.
  unfold outcome, TeamSync.getExistingTeamAndMembers. simpl.
  destruct (h (teams_getByName org slug) s) as [[e|team] s1]; simpl; [done|].
  by destruct (h (teams_listMembersInOrg org slug) s1) as [[e|ms] s2].
Qed.

Lemma getExistingTeamAndMembers_log (org slug : string) {S} (h : client S) (s : S)
    (c : call) (r : option Error) :
  (c, r) ∈ log h (TeamSync.getExistingTeamAndMembers org slug) s → ¬ not_a_lookup c.
Proof.
  unfold log, TeamSync.getExistingTeamAndMembers. simpl.
  destruct (h (teams_getByName org slug) s) as [[e|team] s1]; simpl.
  - intros Hin%list_elem_of_singleton. injection Hin as -> _. by intros [].
  - destruct (h (teams_listMembersInOrg org slug) s1) as [[e|ms] s2]; simpl;
      intros [Hin|Hin%list_elem_of_singleton]%elem_of_cons;
      injection Hin as -> _; by intros [].
Qed.

Lemma propagating_getExistingTeamAndMembers (org slug : string) :
  propagating not_a_lookup (TeamSync.getExistingTeamAndMembers org slug).
Proof.
  intros S h s c e Hin HP. by apply getExistingTeamAndMembers_log in Hin.
Qed.

Lemma propagating_synchronizeTeamData (slugify : string → string) (org auth : string)
    (teamData : list (string * team_entry)) :
  propagating not_a_lookup (TeamSync.synchronizeTeamData slugify org auth teamData).
Proof.
  apply propagating_forOf. intros [teamName entry].
  unfold TeamSync.synchronizeTeam. cbn [fst snd].
  destruct (members entry) as [ms|]; [|apply propagating_throw].
  apply propagating_bind; [apply propagating_getExistingTeamAndMembers|].
  intros found. eapply propagating_equiv; [apply reconcileMembers_issue|].
  apply propagating_issue.
Qed.

Lemma exec_catch_failed (m : io run_status) {S} (h : client S) (s : S) :
  exec h (try_catch m (λ error, Return (Failed (message error)))) s =
    ((exec h m s).1,
     match (exec h m s).2 with
     | inl e => inr (Failed (message e))
     | inr st => inr st
     end).
Proof.
  rewrite exec_try_catch. destruct (exec h m s) as [[l s'] [e|st]]; simpl; [|done].
  by rewrite app_nil_r.
Qed.

(** The claim C7 fails during an outage of the team lookup.  The rejection of
    [teams.getByName] with a server error, for a team that exists, yields the
    absent state; and the run over an organisation without teams creates the
    team and reports success instead of the failure. *)
Lemma lookup_outage_is_not_reported :
  status Reference.server_error ≠ Some 404%Z
  ∧ outcome Reference.api_outage (TeamSync.getExistingTeamAndMembers "acme" "infra")
      (Reference.acme_with "infra" ["alice"]) = inr (None, [])
  ∧ outcome Reference.api_outage
      (TeamSync.run Reference.slugify (Reference.team_file ["alice"])
         Reference.Buffer_toString Reference.pr_context "teams.json")
      Reference.acme = inr Succeeded
  ∧ log Reference.api_outage
      (TeamSync.run Reference.slugify (Reference.team_file ["alice"])
         Reference.Buffer_toString Reference.pr_context "teams.json")
      Reference.acme
    = [(users_getAuthenticated, None);
       (repos_getContents "acme" "widgets" "teams.json" "c0ffee", None);
       (teams_getByName "acme" "infra", Some Reference.server_error);
       (teams_create "acme" "infra" "closed", None);
       (teams_removeMembershipInOrg "acme" "infra" "svc-bot", None);
       (teams_addOrUpdateMembershipInOrg "acme" "infra" "alice", None)].
Proof. split_and!; [discriminate|vm_compute; reflexivity..]. Qed.

(** C7, amended. [getExistingTeamAndMembers] never throws: when
    [teams.getByName] or [teams.listMembersInOrg] is rejected, whatever the
    error, it returns no team and no members, which is the absent state, and
    otherwise the team with the logins of its members.  The rejection of any
    other request of the run reaches the [catch] of [run], which reports the
    failure with the message of that error. *)
Theorem lookup_rejections_mean_absent (slugify : string → string)
    (JSON_parse : string → Error + list (string * team_entry))
    (Buffer_toString : string → string → string) (context : Context)
    (teamDataPath org slug : string) {S : Type} (h : client S) (s : S) :
  let run := TeamSync.run slugify JSON_parse Buffer_toString context teamDataPath in
  outcome h (TeamSync.getExistingTeamAndMembers org slug) s =
    inr match (h (teams_getByName org slug) s).1 with
        | inl _ => (None, [])
        | inr team =>
            match (h (teams_listMembersInOrg org slug) (h (teams_getByName org slug) s).2).1 with
            | inl _ => (None, [])
            | inr ms => (Some team, login <$> ms)
            end
        end
  ∧ (∀ c e, (c, Some e) ∈ log h run s → not_a_lookup c →
       outcome h run s = inr (Failed (message e))).
Proof.
  intros run. split; [apply getExistingTeamAndMembers_outcome|].
  intros c e. unfold run, TeamSync.run, log, outcome. rewrite exec_catch_failed.
  cbn [fst snd].
  match goal with |- context [exec h ?m s] => set (body := m) end.
  intros Hin HP.
  assert (Hbody : propagating not_a_lookup body).
  { apply propagating_bind; [apply propagating_await|]. intros authenticated.
    apply propagating_bind.
    - unfold TeamSync.getTeamData, TeamSync.fetchContent.
      apply propagating_bind.
      + apply propagating_bind; [apply propagating_await|].
        intros data. apply propagating_return.
      + intros text. apply (propagating_liftE _ (JSON_parse text)).
    - intros teamData. apply propagating_bind;
        [apply propagating_synchronizeTeamData|].
      intros _. apply propagating_return. }
  specialize (Hbody _ h s c e Hin HP). unfold outcome in Hbody. by rewrite Hbody.
Qed.

(** A witness of C7, amended: during the outage the creation of a team that
    exists is rejected, and that rejection is reported. *)
Lemma lookup_rejections_mean_absent_witness :
  outcome Reference.api_outage
    (TeamSync.run Reference.slugify (Reference.team_file ["alice"])
       Reference.Buffer_toString Reference.pr_context "teams.json")
    (Reference.acme_with "infra" ["alice"])
  = inr (Failed "Validation Failed").
Proof.
  refine (proj2 (lookup_rejections_mean_absent Reference.slugify
            (Reference.team_file ["alice"]) Reference.Buffer_toString
            Reference.pr_context "teams.json" "acme" "infra" Reference.api_outage
            (Reference.acme_with "infra" ["alice"]))
          (teams_create "acme" "infra" "closed")
          (mkError "Validation Failed" (Some 422%Z)) _ _).
  - apply (bool_decide_unpack _). vm_compute. reflexivity.
  - exact I.
Defined.

(** ** The labeller: applying the labels *)

Section labeller_facts.
Context (Minimatch : value → Error + (string → bool)).
Context (context : Context).

Lemma shouldCloseAndReopenIssue_spec (additionalLabels : list string) :
  Labeler.shouldCloseAndReopenIssue additionalLabels = true ↔ additionalLabels ≠ [].
Proof.
  unfold Labeler.shouldCloseAndReopenIssue. rewrite bool_decide_eq_true.
  destruct additionalLabels; simpl; [split; [lia|done]|split; [done|lia]].
Qed.

Lemma guarded_request (b : bool) (P : Prop) `{!Decision P} (c : call) :
  (b = true ↔ ¬ P) →
  (if b then request c else Return tt) ≈ issue (if decide P then [] else [c]).
Proof.
  intros Hb. destruct b, (decide P) as [HP|HP].
  - by destruct (proj1 Hb eq_refl).
  - rewrite issue_cons. intros S h s. symmetry. apply bind_return_tt.
  - apply equiv_refl.
  - discriminate (proj2 Hb HP).
Qed.

Lemma labelPullRequest_issue (prNumber : Z) (changedFiles : list string)
    (labelGlobs : Map (list value)) (teamLabelsToMembers : Map (list string))
    (globbed : list string) :
  Labeler.globLabels Minimatch changedFiles labelGlobs = inr globbed →
  Labeler.labelPullRequest Minimatch context prNumber changedFiles labelGlobs
    teamLabelsToMembers
  ≈ issue (labelPlan context prNumber globbed
             (Labeler.getTeamLabel teamLabelsToMembers (Labeler.getPrAuthor context))).
Proof.
  intros Hglob. unfold Labeler.labelPullRequest, labelPlan. rewrite Hglob.
  set (additionalLabels := Labeler.getTeamLabel _ _).
  change (bind (liftE (inr globbed)) ?f) with (f globbed). cbv beta.
  eapply equiv_trans; [|apply issue_app].
  apply equiv_bind.
  { apply guarded_request, shouldCloseAndReopenIssue_spec. }
  intros _. eapply equiv_trans; [|apply issue_app].
  apply equiv_bind.
  { apply guarded_request. rewrite bool_decide_eq_true.
    destruct (globbed ++ additionalLabels); simpl; [split; [lia|done]|split; [done|lia]]. }
  intros _. apply guarded_request, shouldCloseAndReopenIssue_spec.
Qed.

Lemma labelPullRequest_throws (prNumber : Z) (changedFiles : list string)
    (labelGlobs : Map (list value)) (teamLabelsToMembers : Map (list string))
    (e : Error) {S} (h : client S) (s : S) :
  Labeler.globLabels Minimatch changedFiles labelGlobs = inl e →
  exec h (Labeler.labelPullRequest Minimatch context prNumber changedFiles labelGlobs
            teamLabelsToMembers) s = ([], s, inl e).
Proof. intros Hglob. unfold Labeler.labelPullRequest. by rewrite Hglob. Qed.

End labeller_facts.

Lemma stripHash_no_hash (l : string) : ¬ occurs "#" (stripHash l).
Proof.
  induction l as [|c l IH]; simpl; [tauto|].
  destruct (decide (c = "#"%char)) as [->|Hc]; [done|]. simpl. intros [Heq|Hocc]; by auto.
Qed.

Lemma stripHash_length (l : string) : String.length (stripHash l) ≤ String.length l.
Proof.
  induction l as [|c l IH]; simpl; [done|].
  destruct (decide (c = "#"%char)); simpl; lia.
Qed.

Lemma stripHash_fixed (l : string) : stripHash l = l ↔ ¬ occurs "#" l.
Proof.
  induction l as [|c l IH]; simpl; [tauto|].
  destruct (decide (c = "#"%char)) as [->|Hc].
  - split; [|tauto]. intros Heq. pose proof (stripHash_length l) as Hlen.
    rewrite Heq in Hlen. simpl in Hlen. lia.
  - split.
    + intros [= Heq]. apply IH in Heq. intros [?|?]; by auto.
    + intros Hocc. f_equal. apply IH. tauto.
Qed.

Lemma fmap_fixed {A} (f : A → A) (l : list A) : f <$> l = l → ∀ x, x ∈ l → f x = x.
Proof.
  induction l as [|y l IH]; intros Heq x Hx; [by apply elem_of_nil in Hx|].
  injection Heq as Hy Hl. apply elem_of_cons in Hx as [->|Hx]; [done|by apply IH].
Qed.

Lemma labelPlan_apply (context : Context) (prNumber : Z) (globbed additional : list string)
    (c : call) (o r : string) (n : Z) (applied : list string) :
  c ∈ labelPlan context prNumber globbed additional →
  c = issues_addLabels o r n applied →
  applied = stripHash <$> (globbed ++ additional).
Proof.
  unfold labelPlan. intros Hin ->.
  repeat case_decide; simpl in Hin;
    repeat (apply elem_of_cons in Hin as [Hin|Hin]; [congruence|]);
    by apply elem_of_nil in Hin.
Qed.

Lemma stripHash_characters (l : string) :
  String.list_ascii_of_string (stripHash l)
  = filter (λ c, c ≠ "#"%char) (String.list_ascii_of_string l).
Proof.
  induction l as [|c l IH]; [done|]. cbn [stripHash String.list_ascii_of_string].
  rewrite filter_cons. destruct (decide (c = "#"%char)) as [->|Hc].
  - by rewrite decide_False by (intros Hne; by apply Hne).
  - rewrite decide_True by done. cbn [String.list_ascii_of_string]. by rewrite IH.
Qed.

(** C10. The one request of [addLabels] carries every label with all its [#]
    characters taken out and its other characters kept, in their order, and
    so does every label request of the run: no applied label contains [#],
    and the applied labels differ from the computed ones as soon as one
    computed label contains [#]. *)
Theorem labels_are_stripped (Minimatch : value → Error + (string → bool))
    (context : Context) (prNumber : Z) (changedFiles : list string)
    (labelGlobs : Map (list value)) (teamLabelsToMembers : Map (list string))
    (labels : list string) {S : Type} (h : client S) (s : S) :
  trace h (Labeler.addLabels context prNumber labels) s
    = [issues_addLabels (owner context) (repo context) prNumber (stripHash <$> labels)]
  ∧ (∀ c o r n applied,
       c ∈ trace h (Labeler.labelPullRequest Minimatch context prNumber changedFiles
                      labelGlobs teamLabelsToMembers) s →
       c = issues_addLabels o r n applied →
       ∃ globbed,
         Labeler.globLabels Minimatch changedFiles labelGlobs = inr globbed ∧
         applied = stripHash <$>
           (globbed ++ Labeler.getTeamLabel teamLabelsToMembers (Labeler.getPrAuthor context)))
  ∧ (∀ l, String.list_ascii_of_string (stripHash l)
          = filter (λ c, c ≠ "#"%char) (String.list_ascii_of_string l))
  ∧ (∀ l, l ∈ stripHash <$> labels → ¬ occurs "#" l)
  ∧ (∀ l, stripHash l = l ↔ ¬ occurs "#" l)
  ∧ ((∃ l, l ∈ labels ∧ occurs "#" l) → stripHash <$> labels ≠ labels).
Proof.
  split_and!.
  - unfold trace, log, Labeler.addLabels. by rewrite exec_request.
  - intros c o r n applied Hin Hc.
    destruct (Labeler.globLabels Minimatch changedFiles labelGlobs) as [e|globbed] eqn:Hglob.
    + unfold trace, log in Hin.
      rewrite (labelPullRequest_throws _ _ _ _ _ _ e h s Hglob) in Hin.
      by apply elem_of_nil in Hin.
    + exists globbed. split; [done|].
      rewrite (equiv_trace _ _ h s
                 (labelPullRequest_issue _ context prNumber _ _ teamLabelsToMembers _ Hglob))
        in Hin.
      pose proof (elem_of_prefix _ _ _ Hin (trace_issue_prefix h _ s)) as Hplan.
      exact (labelPlan_apply _ _ _ _ _ _ _ _ _ Hplan Hc).
  - apply stripHash_characters.
  - intros l (l0 & -> & _)%list_elem_of_fmap. apply stripHash_no_hash.
  - apply stripHash_fixed.
  - intros (l & Hl & Hocc) Heq. by apply (stripHash_fixed l); [apply (fmap_fixed _ _ Heq)|].
Qed.

(** A witness of C10: the label [team#1] is applied as [team1]. *)
Lemma labels_are_stripped_witness :
  stripHash <$> ["team#1"; "docs"] ≠ ["team#1"; "docs"]
  ∧ String.list_ascii_of_string (stripHash "team#1") = String.list_ascii_of_string "team1".
Proof.
  split.
  - refine (proj2 (proj2 (proj2 (proj2 (proj2
              (labels_are_stripped Reference.Minimatch Reference.pr_context 7 [] [] []
                 ["team#1"; "docs"] Reference.api Reference.acme))))) _).
    exists "team#1". split; [by left|]. simpl. tauto.
  - exact (proj1 (proj2 (proj2
             (labels_are_stripped Reference.Minimatch Reference.pr_context 7 [] [] []
                ["team#1"; "docs"] Reference.api Reference.acme))) "team#1").
Defined.

(** C4. The close-and-reopen flag is set exactly when the team gives a label,
    whatever the globs give.  The requests of the end of the run are, in this
    order, the closing of the pull request when the flag is set, the label
    request when there is a label at all, and the reopening when the flag is
    set; they stop at the first rejected request and are complete when the
    run returns.  Without any label nothing is requested, and without a team
    label the state of the pull request is never updated. *)
Theorem reopen_cycle_and_order (Minimatch : value → Error + (string → bool))
    (context : Context) (prNumber : Z) (changedFiles : list string)
    (labelGlobs : Map (list value)) (teamLabelsToMembers : Map (list string))
    {S : Type} (h : client S) (s : S) :
  let additionalLabels :=
    Labeler.getTeamLabel teamLabelsToMembers (Labeler.getPrAuthor context) in
  let m := Labeler.labelPullRequest Minimatch context prNumber changedFiles labelGlobs
             teamLabelsToMembers in
  (Labeler.shouldCloseAndReopenIssue additionalLabels = true ↔ additionalLabels ≠ [])
  ∧ match Labeler.globLabels Minimatch changedFiles labelGlobs with
    | inl e => trace h m s = [] ∧ outcome h m s = inl e
    | inr globbed =>
        let labels := globbed ++ additionalLabels in
        let plan :=
          (if decide (additionalLabels = []) then []
           else [pulls_update (owner context) (repo context) prNumber "closed"]) ++
          (if decide (labels = []) then []
           else [issues_addLabels (owner context) (repo context) prNumber
                   (stripHash <$> labels)]) ++
          (if decide (additionalLabels = []) then []
           else [pulls_update (owner context) (repo context) prNumber "open"]) in
        (trace h m s `prefix_of` plan)
        ∧ (outcome h m s = inr tt → trace h m s = plan)
        ∧ (labels = [] → trace h m s = [])
        ∧ (additionalLabels = [] →
             ∀ c o r n st, c ∈ trace h m s → c ≠ pulls_update o r n st)
    end.
Proof.
  intros additionalLabels m. split; [apply shouldCloseAndReopenIssue_spec|].
  destruct (Labeler.globLabels Minimatch changedFiles labelGlobs) as [e|globbed] eqn:Hglob.
  - unfold trace, log, outcome, m.
    by rewrite (labelPullRequest_throws _ _ _ _ _ teamLabelsToMembers e h s Hglob).
  - intros labels plan.
    pose proof (labelPullRequest_issue _ context prNumber _ _ teamLabelsToMembers _ Hglob)
      as Hm.
    fold m additionalLabels in Hm. change (labelPlan _ _ _ _) with plan in Hm.
    assert (Hprefix : trace h m s `prefix_of` plan).
    { rewrite (equiv_trace _ _ h s Hm). apply trace_issue_prefix. }
    split_and!; [done|..].
    + intros Hout. rewrite (equiv_trace _ _ h s Hm).
      apply (trace_issue_returns h plan s tt). by rewrite <-(equiv_outcome _ _ h s Hm).
    + intros Hnil. apply prefix_nil_inv. unfold plan in Hprefix.
      apply app_eq_nil in Hnil as Hboth. destruct Hboth as [_ Hadd].
      destruct (decide (additionalLabels = [])); [|done].
      by destruct (decide (labels = [])).
    + intros Hadd c o r n st Hin ->.
      apply (elem_of_prefix _ _ _ Hin) in Hprefix. unfold plan in Hprefix.
      destruct (decide (additionalLabels = [])); [|done].
      destruct (decide (labels = [])); simpl in Hprefix.
      * by apply elem_of_nil in Hprefix.
      * by apply list_elem_of_singleton in Hprefix.
Qed.

(** A witness of C4: dave, of team infra, changes a file under [docs/]. *)
Lemma reopen_cycle_and_order_witness :
  trace Reference.api
    (Labeler.labelPullRequest Reference.Minimatch Reference.pr_context 7
       ["docs/readme.md"] [("docs", [VString "docs/**"])] [("infra", ["dave"])])
    Reference.acme
  = [pulls_update "acme" "widgets" 7 "closed";
     issues_addLabels "acme" "widgets" 7 ["docs"; "infra"];
     pulls_update "acme" "widgets" 7 "open"].
Proof.
  refine (proj1 (proj2 (proj2 (reopen_cycle_and_order Reference.Minimatch
            Reference.pr_context 7 ["docs/readme.md"] [("docs", [VString "docs/**"])]
            [("infra", ["dave"])] Reference.api Reference.acme))) _).
  vm_compute. reflexivity.
Defined.

(** The claim C5 fails for a label that the globs and the team both give:
    the label request carries it twice. *)
Lemma team_and_glob_label_applied_twice :
  trace Reference.api
    (Labeler.labelPullRequest Reference.Minimatch Reference.pr_context 7
       ["infra/main.tf"] [("infra", [VString "infra/**"])] [("infra", ["dave"])])
    Reference.acme
  = [pulls_update "acme" "widgets" 7 "closed";
     issues_addLabels "acme" "widgets" 7 ["infra"; "infra"];
     pulls_update "acme" "widgets" 7 "open"]
  ∧ ¬ NoDup ["infra"; "infra"].
Proof.
  split; [vm_compute; reflexivity|].
  intros Hnd. apply NoDup_cons in Hnd as [Hnotin _]. apply Hnotin. by left.
Qed.

(** C5, amended. The labels of the label request are the glob-matched labels
    followed by the team-derived labels, each without its [#] characters.  As
    a set this is the union of the two; as a list it keeps duplicates, so a
    label that is both glob-matched and team-derived is sent twice. *)
Theorem applied_labels_are_concatenated (Minimatch : value → Error + (string → bool))
    (context : Context) (prNumber : Z) (changedFiles : list string)
    (labelGlobs : Map (list value)) (teamLabelsToMembers : Map (list string))
    (globbed : list string) {S : Type} (h : client S) (s : S) :
  let additionalLabels :=
    Labeler.getTeamLabel teamLabelsToMembers (Labeler.getPrAuthor context) in
  let m := Labeler.labelPullRequest Minimatch context prNumber changedFiles labelGlobs
             teamLabelsToMembers in
  Labeler.globLabels Minimatch changedFiles labelGlobs = inr globbed →
  (∀ c o r n applied, c ∈ trace h m s → c = issues_addLabels o r n applied →
     applied = stripHash <$> (globbed ++ additionalLabels))
  ∧ (outcome h m s = inr tt → globbed ++ additionalLabels ≠ [] →
       issues_addLabels (owner context) (repo context) prNumber
         (stripHash <$> (globbed ++ additionalLabels)) ∈ trace h m s)
  ∧ list_to_set (globbed ++ additionalLabels)
      =@{gset string} list_to_set globbed ∪ list_to_set additionalLabels
  ∧ (∀ l, l ∈ globbed → l ∈ additionalLabels →
       ¬ NoDup (stripHash <$> (globbed ++ additionalLabels))).
Proof.
  intros additionalLabels m Hglob.
  pose proof (labelPullRequest_issue _ context prNumber _ _ teamLabelsToMembers _ Hglob)
    as Hm.
  fold m additionalLabels in Hm.
  split_and!.
  - intros c o r n applied Hin Hc. rewrite (equiv_trace _ _ h s Hm) in Hin.
    pose proof (elem_of_prefix _ _ _ Hin (trace_issue_prefix h _ s)) as Hplan.
    exact (labelPlan_apply _ _ _ _ _ _ _ _ _ Hplan Hc).
  - intros Hout Hne. rewrite (equiv_trace _ _ h s Hm).
    rewrite (trace_issue_returns h _ s tt) by by rewrite <-(equiv_outcome _ _ h s Hm).
    unfold labelPlan. rewrite (decide_False (P := globbed ++ additionalLabels = [])) by done.
    apply elem_of_app. right. apply elem_of_app. left. by left.
  - apply list_to_set_app_L.
  - intros l Hg Ha Hnd. apply NoDup_fmap_1, NoDup_app in Hnd as (_ & Hdisj & _).
    by apply (Hdisj l).
Qed.

(** A witness of C5, amended: the label request of the pull request of dave,
    who changes a file under [infra/]. *)
Lemma applied_labels_are_concatenated_witness :
  issues_addLabels "acme" "widgets" 7 ["infra"; "infra"]
  ∈ trace Reference.api
      (Labeler.labelPullRequest Reference.Minimatch Reference.pr_context 7
         ["infra/main.tf"] [("infra", [VString "infra/**"])] [("infra", ["dave"])])
      Reference.acme.
Proof.
  refine (proj1 (proj2 (applied_labels_are_concatenated Reference.Minimatch
            Reference.pr_context 7 ["infra/main.tf"] [("infra", [VString "infra/**"])]
            [("infra", ["dave"])] ["infra"] Reference.api Reference.acme _)) _ _).
  - vm_compute. reflexivity.
  - vm_compute. reflexivity.
  - discriminate.
Defined.

(** ** The labeller: the author of the pull request *)

Lemma elem_of_getTeamLabel (labelsConfiguration : Map (list string)) (author label : string) :
  label ∈ Labeler.getTeamLabel labelsConfiguration author ↔
  ∃ authors, (label, authors) ∈ labelsConfiguration ∧ author ∈ authors.
Proof.
  unfold Labeler.getTeamLabel. rewrite list_elem_of_fmap. split.
  - intros ([l authors] & -> & Hin). apply list_elem_of_filter in Hin as [Hinc Hin].
    exists authors. split; [done|]. unfold includes in Hinc. simpl in Hinc.
    by apply bool_decide_unpack in Hinc.
  - intros (authors & Hin & Hauthor). exists (label, authors). split; [done|].
    apply list_elem_of_filter. split; [|done]. by apply bool_decide_pack.
Qed.

Lemma run_with_inputs_supplied (Minimatch : value → Error + (string → bool))
    (yaml_safeLoad : string → Error + config)
    (JSON_parse : string → Error + list (string * team_entry))
    (Buffer_toString : string → string → string) (context : Context)
    (getInput : string → bool → Error + string) (token configPath : string) :
  getInput "repo-token" true = inr token →
  getInput "configuration-path" true = inr configPath →
  Labeler.run_with_inputs Minimatch yaml_safeLoad JSON_parse Buffer_toString context getInput
  = Labeler.run Minimatch yaml_safeLoad JSON_parse Buffer_toString context configPath.
Proof.
  intros Htoken Hpath. unfold Labeler.run_with_inputs, Labeler.run.
  by rewrite Htoken, Hpath.
Qed.

Lemma run_with_inputs_missing (Minimatch : value → Error + (string → bool))
    (yaml_safeLoad : string → Error + config)
    (JSON_parse : string → Error + list (string * team_entry))
    (Buffer_toString : string → string → string) (context : Context)
    (getInput : string → bool → Error + string) (e : Error) {S} (h : client S) (s : S) :
  getInput "repo-token" true = inl e
  ∨ ((∃ token, getInput "repo-token" true = inr token)
     ∧ getInput "configuration-path" true = inl e) →
  exec h (Labeler.run_with_inputs Minimatch yaml_safeLoad JSON_parse Buffer_toString
            context getInput) s
  = ([], s, inr (Failed (message e))).
Proof.
  unfold Labeler.run_with_inputs. intros [Htoken|[[token Htoken] Hpath]].
  - by rewrite Htoken.
  - by rewrite Htoken, Hpath.
Qed.



(** ** The labeller: malformed rules *)

Lemma getLabelGlobMapFrom_rejects (pre post : list (string * value)) (label : string)
    (v : value) (labelGlobs : Map (list value)) :
  Forall (λ entry, accepted entry.2) pre → ¬ accepted v →
  Labeler.getLabelGlobMapFrom (pre ++ (label, v) :: post) labelGlobs
  = inl (mkError ("found unexpected type for label " +:+ label +:+
                  " (should be string or array of globs)") None).
Proof.
  intros Hpre Hv. revert labelGlobs.
  induction Hpre as [|[l w] pre Hw _ IH]; intros labelGlobs.
  - simpl. by destruct v; simpl in Hv.
  - simpl. by destruct w; simpl in Hw.
Qed.

Lemma getLabelGlobMapFrom_accepts (entries : list (string * value))
    (labelGlobs : Map (list value)) :
  Forall (λ entry, accepted entry.2) entries →
  ∃ m, Labeler.getLabelGlobMapFrom entries labelGlobs = inr m.
Proof.
  intros Hall. revert labelGlobs.
  induction Hall as [|[l w] entries Hw _ IH]; intros labelGlobs.
  - by exists labelGlobs.
  - simpl. by destruct w; simpl in Hw.
Qed.

Lemma exec_getConfigurationContents (yaml_safeLoad : string → Error + config)
    (Buffer_toString : string → string → string) (context : Context) (configPath : string)
    (data : content_data) {S} (h : client S) (s : S) :
  let getContents := repos_getContents (owner context) (repo context) configPath
                       (sha context) in
  (h getContents s).1 = inr data →
  exec h (Labeler.getConfigurationContents yaml_safeLoad Buffer_toString context configPath) s
  = ([(getContents, None)], (h getContents s).2,
     yaml_safeLoad (Buffer_toString (content data) (encoding data))).
Proof.
  intros getContents Hdata.
  unfold Labeler.getConfigurationContents, Labeler.fetchContent.
  rewrite !exec_bind, exec_await. fold getContents. rewrite Hdata. cbn [fst snd exec app].
  rewrite exec_liftE. by destruct (yaml_safeLoad _).
Qed.

Lemma exec_getChangedFiles (context : Context) (prNumber : Z) {S} (h : client S) (s : S) :
  let listFiles := pulls_listFiles (owner context) (repo context) prNumber in
  exec h (Labeler.getChangedFiles context prNumber) s
  = ([(listFiles, rejection (h listFiles s).1)], (h listFiles s).2,
     match (h listFiles s).1 with
     | inl e => inl e
     | inr files => inr (filename <$> files)
     end).
Proof.
  intros listFiles. unfold Labeler.getChangedFiles.
  rewrite exec_bind, exec_await. fold listFiles. cbn [fst snd].
  by destruct (h listFiles s).1.
Qed.

(** The claim C6 fails for an array that holds something else than strings:
    it is neither a string nor a sequence of strings, and it is accepted.
    With a first pattern that matches a changed file the run even applies the
    label of that rule. *)
Lemma array_of_numbers_is_accepted :
  ¬ string_array (VArray [VString "*.yml"; VNumber 3])
  ∧ Labeler.getLabelGlobMapFromObject [("x", VArray [VString "*.yml"; VNumber 3])]
    = inr [("x", [VString "*.yml"; VNumber 3])]
  ∧ exec Reference.api
      (Labeler.run Reference.Minimatch
         (Reference.configuration [("x", VArray [VString "*.yml"; VNumber 3])] [])
         (Reference.team_file []) Reference.Buffer_toString Reference.pr_context
         "labeler.yml")
      Reference.acme
    = ([(repos_getContents "acme" "widgets" "labeler.yml" "c0ffee", None);
        (pulls_listFiles "acme" "widgets" 7, None);
        (issues_addLabels "acme" "widgets" 7 ["x"], None)],
       Reference.with_labels Reference.acme ["x"], inr Succeeded).
Proof.
  split_and!; [|reflexivity|vm_compute; reflexivity].
  simpl. intros Hall. apply Forall_cons in Hall as [_ Hall].
  apply Forall_cons in Hall as [[s Hs] _]. discriminate Hs.
Qed.

(** C6, amended. When the value of some label is neither a string nor an
    array, [getLabelGlobMapFromObject] throws an error whose message names the
    first such label; what an array holds is not looked at.  A run that loads
    such a configuration fails, after it has requested nothing but the
    configuration file and the changed files: no label is applied and the
    pull request is not closed.  When the changed files are listed, the
    failure carries the message that names the label. *)
Theorem malformed_rule_aborts (Minimatch : value → Error + (string → bool))
    (yaml_safeLoad : string → Error + config)
    (JSON_parse : string → Error + list (string * team_entry))
    (Buffer_toString : string → string → string) (context : Context)
    (configPath : string) (pre post : list (string * value)) (label : string) (v : value)
    (cfg : config) (data : content_data) (pr : pull_request)
    {S : Type} (h : client S) (s : S) :
  let error := mkError ("found unexpected type for label " +:+ label +:+
                        " (should be string or array of globs)") None in
  let run := Labeler.run Minimatch yaml_safeLoad JSON_parse Buffer_toString context
               configPath in
  let getContents := repos_getContents (owner context) (repo context) configPath
                       (sha context) in
  let listFiles := pulls_listFiles (owner context) (repo context) (number pr) in
  Forall (λ entry, accepted entry.2) pre → ¬ accepted v →
  Labeler.getLabelGlobMapFromObject (pre ++ (label, v) :: post) = inl error
  ∧ (payload_pull_request context = Some pr → number pr ≠ 0%Z →
     (h getContents s).1 = inr data →
     yaml_safeLoad (Buffer_toString (content data) (encoding data)) = inr cfg →
     file_pattern_labels cfg = pre ++ (label, v) :: post →
     (∃ msg, outcome h run s = inr (Failed msg))
     ∧ (∀ c, c ∈ trace h run s → c = getContents ∨ c = listFiles)
     ∧ (∀ files, (h listFiles (h getContents s).2).1 = inr files →
          outcome h run s = inr (Failed (message error)))).
Proof.
  intros error run getContents listFiles Hpre Hv.
  assert (Hreject : Labeler.getLabelGlobMapFromObject (pre ++ (label, v) :: post) = inl error).
  { by apply getLabelGlobMapFrom_rejects. }
  split; [done|].
  intros Hpr Hn Hdata Hload Hcfg.
  unfold outcome, trace, log, run, Labeler.run, Labeler.getPrNumber.
  rewrite Hpr, decide_False by done.
  rewrite exec_catch_failed. cbn [fst snd].
  rewrite exec_bind, (exec_getConfigurationContents _ _ _ _ data h s Hdata), Hload.
  cbn [fst snd]. rewrite exec_bind, exec_getChangedFiles. fold getContents listFiles.
  cbn [fst snd].
  destruct (h listFiles (h getContents s).2).1 as [e|files]; cbn [fst snd rejection].
  - split_and!.
    + by eexists.
    + intros c. cbn. rewrite !elem_of_cons. intros [->|[->|[]%elem_of_nil]]; auto.
    + intros files' [=].
  - unfold Labeler.getLabelGlobs. rewrite exec_bind, exec_liftE, Hcfg, Hreject.
    cbn [fst snd]. split_and!.
    + by eexists.
    + intros c. cbn. rewrite !elem_of_cons. intros [->|[->|[]%elem_of_nil]]; auto.
    + done.
Qed.

(** A witness of C6, amended: the value of label [x] is a number. *)
Lemma malformed_rule_aborts_witness :
  outcome Reference.api
    (Labeler.run Reference.Minimatch
       (Reference.configuration [("docs", VString "docs/**"); ("x", VNumber 3)] [])
       (Reference.team_file []) Reference.Buffer_toString Reference.pr_context
       "labeler.yml")
    Reference.acme
  = inr (Failed "found unexpected type for label x (should be string or array of globs)").
Proof.
  refine (proj2 (proj2 (proj2 (malformed_rule_aborts Reference.Minimatch
            (Reference.configuration [("docs", VString "docs/**"); ("x", VNumber 3)] [])
            (Reference.team_file []) Reference.Buffer_toString Reference.pr_context
            "labeler.yml" [("docs", VString "docs/**")] [] "x" (VNumber 3)
            {| file_pattern_labels := [("docs", VString "docs/**"); ("x", VNumber 3)];
               teams_configuration_location := None; team_labels := Some [] |}
            {| content := ""; encoding := "base64" |}
            {| number := 7; user := {| login := "dave" |} |}
            Reference.api Reference.acme _ _) _ _ _ _ _))
          ((λ f, {| filename := f |}) <$> ["docs/readme.md"; "action.yml"]) _).
  - by repeat constructor.
  - simpl. tauto.
  - reflexivity.
  - simpl. lia.
  - reflexivity.
  - reflexivity.
  - reflexivity.
  - reflexivity.
Defined.

(** ** The labeller: classification by globs *)

Section classification.
Context (Minimatch : value → Error + (string → bool)).

Lemma existsb_elem_of (matcher : string → bool) (files : list string) :
  existsb matcher files = true ↔ ∃ file, file ∈ files ∧ matcher file = true.
Proof.
  rewrite existsb_exists. split; intros (f & Hf & Hm); exists f;
    by rewrite ?list_elem_of_In in *.
Qed.

Lemma checkGlobs_valid (changedFiles : list string) (globs : list value) :
  (∀ glob, glob ∈ globs → ∃ matcher, Minimatch glob = inr matcher) →
  ∃ matched, Labeler.checkGlobs Minimatch changedFiles globs = inr matched ∧
    (matched = true ↔
     ∃ glob matcher file, glob ∈ globs ∧ Minimatch glob = inr matcher ∧
       file ∈ changedFiles ∧ matcher file = true).
Proof.
  induction globs as [|glob globs IH]; intros Hvalid.
  - exists false. split; [done|]. split; [done|].
    by intros (g & _ & _ & Hin%elem_of_nil & _).
  - destruct (Hvalid glob) as [matcher Hmatcher]; [by left|].
    destruct IH as (matched & Hcheck & Hiff).
    { intros g Hg. apply Hvalid. by right. }
    simpl. rewrite Hmatcher.
    destruct (existsb matcher changedFiles) eqn:Hex.
    + exists true. split; [done|]. split; [|done]. intros _.
      apply existsb_elem_of in Hex as (file & Hfile & Hm).
      exists glob, matcher, file. split_and!; [by left|done..].
    + exists matched. split; [done|]. rewrite Hiff. split.
      * intros (g & m & f & Hg & Hrest). exists g, m, f. split; [by right|done].
      * intros (g & m & f & [->|Hg]%elem_of_cons & Hm & Hf & Hmf).
        -- rewrite Hmatcher in Hm. injection Hm as <-.
           assert (existsb matcher changedFiles = true) as Htrue
             by (apply existsb_elem_of; eauto).
           congruence.
        -- by exists g, m, f.
Qed.

Lemma globLabels_valid (changedFiles : list string) (labelGlobs : Map (list value)) :
  (∀ label globs glob, (label, globs) ∈ labelGlobs → glob ∈ globs →
     ∃ matcher, Minimatch glob = inr matcher) →
  ∃ labels, Labeler.globLabels Minimatch changedFiles labelGlobs = inr labels ∧
    ∀ label, label ∈ labels ↔
      ∃ globs, (label, globs) ∈ labelGlobs ∧
        Labeler.checkGlobs Minimatch changedFiles globs = inr true.
Proof.
  induction labelGlobs as [|[label globs] rest IH]; intros Hvalid.
  - exists []. split; [done|]. intros label. split; [by intros ?%elem_of_nil|].
    by intros (g & Hin%elem_of_nil & _).
  - destruct (checkGlobs_valid changedFiles globs) as (matched & Hcheck & _).
    { intros g Hg. apply (Hvalid label globs); [by left|done]. }
    destruct IH as (labels & Hrest & Hiff).
    { intros l gs g Hl Hg. apply (Hvalid l gs); [by right|done]. }
    simpl. rewrite Hcheck, Hrest.
    exists (if matched then label :: labels else labels). split; [done|].
    intros l. destruct matched.
    + rewrite elem_of_cons, Hiff. split.
      * intros [->|(gs & Hgs & Hc)]; [exists globs|exists gs]; split; try done;
          [by left|by right].
      * intros (gs & [[= -> ->]|Hgs]%elem_of_cons & Hc); [by left|right; eauto].
    + rewrite Hiff. split.
      * intros (gs & Hgs & Hc). exists gs. split; [by right|done].
      * intros (gs & [[= -> ->]|Hgs]%elem_of_cons & Hc); [congruence|eauto].
Qed.

End classification.

(** The keys of a [Map] are distinct. *)
Lemma Map_set_keys {V} (m : Map V) (key : string) (v : V) :
  (Map_set m key v).*1 = if decide (key ∈ m.*1) then m.*1 else m.*1 ++ [key].
Proof.
  induction m as [|[k w] m IH].
  - done.
  - cbn [Map_set]. rewrite fmap_cons. cbn [fst].
    destruct (decide (k = key)) as [->|Hne].
    + by rewrite decide_True by by left.
    + rewrite fmap_cons, IH. cbn [fst]. destruct (decide (key ∈ m.*1)) as [Hin|Hnotin].
      * by rewrite decide_True by by right.
      * rewrite decide_False; [done|]. intros [?|?]%elem_of_cons; by auto.
Qed.

Lemma Map_set_NoDup {V} (m : Map V) (key : string) (v : V) :
  NoDup m.*1 → NoDup (Map_set m key v).*1.
Proof.
  intros Hnd. rewrite Map_set_keys. case_decide; [done|].
  apply NoDup_app. split_and!; [done| |apply NoDup_singleton].
  intros k Hk ->%list_elem_of_singleton. done.
Qed.

Lemma getLabelGlobMapFrom_NoDup (entries : list (string * value))
    (labelGlobs m : Map (list value)) :
  NoDup labelGlobs.*1 → Labeler.getLabelGlobMapFrom entries labelGlobs = inr m →
  NoDup m.*1.
Proof.
  revert labelGlobs. induction entries as [|[label v] entries IH]; intros labelGlobs Hnd.
  - by intros [= <-].
  - simpl. destruct v; try done; by apply IH, Map_set_NoDup.
Qed.

Lemma NoDup_keys_functional {V} (m : Map V) (key : string) (v w : V) :
  NoDup m.*1 → (key, v) ∈ m → (key, w) ∈ m → v = w.
Proof.
  induction m as [|[k u] m IH]; [by intros _ ?%elem_of_nil|].
  simpl. intros [Hk Hnd]%NoDup_cons [[= -> ->]|Hv]%elem_of_cons [[= Hw]|Hw]%elem_of_cons.
  - done.
  - destruct Hk. by apply (list_elem_of_fmap_2' fst _ (k, w)).
  - destruct Hk. subst. by apply (list_elem_of_fmap_2' fst _ (k, v)).
  - by apply IH.
Qed.

(** C2. For the rules that [getLabelGlobMapFromObject] builds, when every
    pattern makes a matcher, the classification returns, and the label of a
    rule is among the returned labels exactly when one pattern of the rule
    matches one changed file; the matcher is given the changed file as it
    is listed.  One pattern and one file are enough for a rule. *)
Theorem classify_any_pattern_any_file (Minimatch : value → Error + (string → bool))
    (configObject : list (string * value)) (labelGlobs : Map (list value))
    (changedFiles : list string) :
  Labeler.getLabelGlobMapFromObject configObject = inr labelGlobs →
  (∀ label globs glob, (label, globs) ∈ labelGlobs → glob ∈ globs →
     ∃ matcher, Minimatch glob = inr matcher) →
  ∃ labels, Labeler.globLabels Minimatch changedFiles labelGlobs = inr labels ∧
    ∀ label globs, (label, globs) ∈ labelGlobs →
      (label ∈ labels ↔
       ∃ glob matcher file, glob ∈ globs ∧ Minimatch glob = inr matcher ∧
         file ∈ changedFiles ∧ matcher file = true).
Proof.
  intros Hmap Hvalid.
  assert (Hnd : NoDup labelGlobs.*1).
  { apply (getLabelGlobMapFrom_NoDup configObject [] labelGlobs); [constructor|done]. }
  destruct (globLabels_valid Minimatch changedFiles labelGlobs Hvalid)
    as (labels & Hlabels & Hiff).
  exists labels. split; [done|]. intros label globs Hin.
  destruct (checkGlobs_valid Minimatch changedFiles globs) as (matched & Hcheck & Hmatched).
  { intros g Hg. by apply (Hvalid label globs). }
  rewrite Hiff, <-Hmatched. split.
  - intros (gs & Hgs & Hc).
    rewrite (NoDup_keys_functional labelGlobs label globs gs Hnd Hin Hgs) in Hcheck.
    congruence.
  - intros ->. by exists globs.
Qed.

(** A witness of C2: the rules [docs: docs/**] and [build: [*.yml, *.yaml]]
    on the changed files [docs/readme.md] and [action.yml]. *)
Lemma classify_any_pattern_any_file_witness :
  ∃ labels,
    Labeler.globLabels Reference.Minimatch ["docs/readme.md"; "action.yml"]
      [("docs", [VString "docs/**"]); ("build", [VString "*.yml"; VString "*.yaml"])]
    = inr labels ∧
    ∀ label globs,
      (label, globs) ∈ [("docs", [VString "docs/**"]);
                        ("build", [VString "*.yml"; VString "*.yaml"])] →
      (label ∈ labels ↔
       ∃ glob matcher file, glob ∈ globs ∧ Reference.Minimatch glob = inr matcher ∧
         file ∈ ["docs/readme.md"; "action.yml"] ∧ matcher file = true).
Proof.
  refine (classify_any_pattern_any_file Reference.Minimatch
            [("docs", VString "docs/**");
             ("build", VArray [VString "*.yml"; VString "*.yaml"])]
            _ ["docs/readme.md"; "action.yml"] _ _).
  - reflexivity.
  - intros label globs glob Hin Hglob.
    repeat (apply elem_of_cons in Hin as [[= -> ->]|Hin]);
      [| |by apply elem_of_nil in Hin];
      repeat (apply elem_of_cons in Hglob as [->|Hglob]);
      try (by apply elem_of_nil in Hglob); by eexists.
Defined.

(** The scenario of the specification for the classification. *)
Example classify_scenario :
  Labeler.globLabels Reference.Minimatch ["docs/readme.md"; "action.yml"]
    [("docs", [VString "docs/**"]); ("build", [VString "*.yml"; VString "*.yaml"])]
  = inr ["docs"; "build"].
Proof. vm_compute. reflexivity. Qed.

(** ** The labeller: order of rules and files *)

Section reordering.
Context (Minimatch : value → Error + (string → bool)).

Lemma existsb_Permutation (matcher : string → bool) (files files' : list string) :
  files ≡ₚ files' → existsb matcher files = existsb matcher files'.
Proof.
  induction 1 as [|f l l' _ IH|f g l|l1 l2 l3 _ IH1 _ IH2]; simpl.
  - done.
  - by rewrite IH.
  - by destruct (matcher f), (matcher g).
  - congruence.
Qed.

Lemma checkGlobs_Permutation (files files' : list string) (globs : list value) :
  files ≡ₚ files' →
  Labeler.checkGlobs Minimatch files globs = Labeler.checkGlobs Minimatch files' globs.
Proof.
  intros Hperm. induction globs as [|glob globs IH]; simpl; [done|].
  destruct (Minimatch glob) as [e|matcher]; [done|].
  by rewrite (existsb_Permutation matcher files files' Hperm), IH.
Qed.

Lemma globLabels_Permutation_files (files files' : list string)
    (labelGlobs : Map (list value)) :
  files ≡ₚ files' →
  Labeler.globLabels Minimatch files labelGlobs = Labeler.globLabels Minimatch files' labelGlobs.
Proof.
  intros Hperm. induction labelGlobs as [|[label globs] rest IH]; simpl; [done|].
  by rewrite (checkGlobs_Permutation files files' globs Hperm), IH.
Qed.

Lemma label_set_cons (label : string) (matched : bool) (r r' : Error + list string) :
  label_set r = label_set r' →
  label_set match r with
            | inl e => inl e
            | inr labels => inr (if matched then label :: labels else labels)
            end
  = label_set match r' with
              | inl e => inl e
              | inr labels => inr (if matched then label :: labels else labels)
              end.
Proof.
  destruct r as [e|l], r' as [e'|l']; simpl; try done.
  intros [= Heq]. destruct matched; simpl; by rewrite ?Heq.
Qed.

Lemma globLabels_Permutation_rules (files : list string) (rules rules' : Map (list value)) :
  rules ≡ₚ rules' →
  label_set (Labeler.globLabels Minimatch files rules)
  = label_set (Labeler.globLabels Minimatch files rules').
Proof.
  induction 1 as [|[label globs] l l' _ IH|[l1 g1] [l2 g2] l|l1 l2 l3 _ IH1 _ IH2].
  - done.
  - simpl. destruct (Labeler.checkGlobs Minimatch files globs) as [e|matched]; [done|].
    by apply label_set_cons.
  - simpl.
    destruct (Labeler.checkGlobs Minimatch files g1) as [e1|m1],
      (Labeler.checkGlobs Minimatch files g2) as [e2|m2],
      (Labeler.globLabels Minimatch files l) as [e|labels]; simpl; try done.
    f_equal. destruct m1, m2; simpl; try done.
    apply set_eq. intros x. rewrite !elem_of_union. tauto.
  - congruence.
Qed.

End reordering.

(** C9. Reordering the rules and reordering the changed files changes
    neither whether the classification returns nor the set of labels that it
    returns. *)
Theorem classify_order_invariant (Minimatch : value → Error + (string → bool))
    (changedFiles changedFiles' : list string) (labelGlobs labelGlobs' : Map (list value)) :
  changedFiles ≡ₚ changedFiles' → labelGlobs ≡ₚ labelGlobs' →
  label_set (Labeler.globLabels Minimatch changedFiles labelGlobs)
  = label_set (Labeler.globLabels Minimatch changedFiles' labelGlobs').
Proof.
  intros Hfiles Hrules.
  rewrite (globLabels_Permutation_files Minimatch _ _ labelGlobs Hfiles).
  by apply globLabels_Permutation_rules.
Qed.

(** A witness of C9: the scenario with the rules and the files exchanged. *)
Lemma classify_order_invariant_witness :
  label_set (Labeler.globLabels Reference.Minimatch ["docs/readme.md"; "action.yml"]
               [("docs", [VString "docs/**"]);
                ("build", [VString "*.yml"; VString "*.yaml"])])
  = label_set (Labeler.globLabels Reference.Minimatch ["action.yml"; "docs/readme.md"]
                 [("build", [VString "*.yml"; VString "*.yaml"]);
                  ("docs", [VString "docs/**"])]).
Proof.
  apply classify_order_invariant; apply Permutation_swap.
Defined.

(** ** The scenarios of the specification, run from end to end *)

(** Desired alice and bob, current bob and carol: carol is removed, alice is
    added, and the team ends with bob and alice. *)
Example synchronise_scenario :
  let x := exec Reference.api
             (TeamSync.run Reference.slugify (Reference.team_file ["alice"; "bob"])
                Reference.Buffer_toString Reference.pr_context "teams.json")
             (Reference.acme_with "infra" ["bob"; "carol"]) in
  x.1.1 = [(users_getAuthenticated, None);
           (repos_getContents "acme" "widgets" "teams.json" "c0ffee", None);
           (teams_getByName "acme" "infra", None);
           (teams_listMembersInOrg "acme" "infra", None);
           (teams_removeMembershipInOrg "acme" "infra" "carol", None);
           (teams_addOrUpdateMembershipInOrg "acme" "infra" "alice", None)]
  ∧ Reference.teams x.1.2 !! "infra" = Some ["bob"; "alice"]
  ∧ x.2 = inr Succeeded.
Proof. vm_compute. by split_and!. Qed.

(** Running the synchroniser again on the team it has just converged issues
    the two lookups and nothing else. *)
Example synchronise_again_scenario :
  trace Reference.api
    (TeamSync.run Reference.slugify (Reference.team_file ["alice"; "bob"])
       Reference.Buffer_toString Reference.pr_context "teams.json")
    (Reference.acme_with "infra" ["bob"; "alice"])
  = [users_getAuthenticated;
     repos_getContents "acme" "widgets" "teams.json" "c0ffee";
     teams_getByName "acme" "infra";
     teams_listMembersInOrg "acme" "infra"].
Proof. vm_compute. reflexivity. Qed.

(** The rules [docs] and [build] and the team infra of dave on the pull
    request of dave: the three labels are applied between the closing and
    the reopening of the pull request. *)
Example label_scenario :
  exec Reference.api
    (Labeler.run Reference.Minimatch
       (Reference.configuration
          [("docs", VString "docs/**");
           ("build", VArray [VString "*.yml"; VString "*.yaml"])]
          [("infra", ["dave"])])
       (Reference.team_file []) Reference.Buffer_toString Reference.pr_context
       "labeler.yml")
    Reference.acme
  = ([(repos_getContents "acme" "widgets" "labeler.yml" "c0ffee", None);
      (pulls_listFiles "acme" "widgets" 7, None);
      (pulls_update "acme" "widgets" 7 "closed", None);
      (issues_addLabels "acme" "widgets" 7 ["docs"; "build"; "infra"], None);
      (pulls_update "acme" "widgets" 7 "open", None)],
     Reference.with_labels Reference.acme ["docs"; "build"; "infra"],
     inr Succeeded).
Proof. vm_compute. reflexivity. Qed.

(** ** Rejected requests end a computation *)

Lemma length_log_bind {A B} (m : io A) (f : A → io B) {S} (h : client S) (s : S) :
  length (log h (bind m f) s) =
    length (log h m s) + match outcome h m s with
                         | inl _ => 0
                         | inr a => length (log h (f a) (final h m s))
                         end.
Proof. rewrite log_bind, length_app. by destruct (outcome h m s). Qed.

Lemma strict_return (P : call → Prop) {A} (a : A) : strict P (Return a).
Proof. by intros S h s i c e. Qed.

Lemma strict_throw (P : call → Prop) {A} (e : Error) : strict P (@Throw A e).
Proof. by intros S h s i c e'. Qed.

Lemma strict_liftE (P : call → Prop) {A} (r : Error + A) : strict P (liftE r).
Proof. destruct r; [apply strict_throw|apply strict_return]. Qed.

Lemma strict_await (P : call → Prop) (c : call) : strict P (await c).
Proof.
  intros S h s i c' e. unfold log, outcome. rewrite exec_await. cbn [fst snd].
  intros [-> [= <- Hrej]]%list_lookup_singleton_Some _.
  split; [|done]. destruct (h c s).1; simpl in Hrej; congruence.
Qed.

Lemma strict_request (P : call → Prop) (c : call) : strict P (request c).
Proof.
  intros S h s i c' e. unfold log, outcome. rewrite exec_request. cbn [fst snd].
  intros [-> [= <- Hrej]]%list_lookup_singleton_Some _.
  split; [|done]. destruct (h c s).1; simpl in Hrej; congruence.
Qed.

Lemma strict_bind (P : call → Prop) {A B} (m : io A) (f : A → io B) :
  strict P m → (∀ a, strict P (f a)) → strict P (bind m f).
Proof.
  intros Hm Hf S h s i c e. rewrite length_log_bind, log_bind, outcome_bind.
  intros [Hi|[Hlen Hi]]%lookup_app_Some HP.
  - destruct (Hm _ h s i c e Hi HP) as [Hout Hl]. rewrite Hout. split; [done|lia].
  - destruct (outcome h m s) as [e'|a]; [done|].
    destruct (Hf a _ h _ _ c e Hi HP) as [Hout Hl]. split; [done|lia].
Qed.

Lemma strict_equiv (P : call → Prop) {A} (m m' : io A) :
  m ≈ m' → strict P m' → strict P m.
Proof.
  intros Heq Hm S h s i c e. rewrite (equiv_log _ _ h s Heq), (equiv_outcome _ _ h s Heq).
  apply Hm.
Qed.

Lemma strict_forOf (P : call → Prop) {A} (l : list A) (body : A → io unit) :
  (∀ x, strict P (body x)) → strict P (forOf l body).
Proof.
  intros Hbody. induction l as [|x l IH]; [apply strict_return|].
  rewrite forOf_cons. apply strict_bind; [apply Hbody|]. by intros _.
Qed.

Lemma strict_issue (P : call → Prop) (plan : list call) : strict P (issue plan).
Proof.
  induction plan as [|c plan IH]; [apply strict_return|].
  rewrite issue_cons. apply strict_bind; [apply strict_request|]. by intros _.
Qed.

Lemma strict_weaken (P Q : call → Prop) {A} (m : io A) :
  (∀ c, Q c → P c) → strict P m → strict Q m.
Proof. intros HPQ Hm S h s i c e Hi HQ. apply (Hm S h s i c e Hi). auto. Qed.

Lemma strict_getExistingTeamAndMembers (org slug : string) :
  strict not_a_lookup (TeamSync.getExistingTeamAndMembers org slug).
Proof.
  intros S h s i c e Hi HP. apply list_elem_of_lookup_2 in Hi.
  by apply getExistingTeamAndMembers_log in Hi.
Qed.

Lemma strict_synchronizeTeamData (slugify : string → string) (org auth : string)
    (teamData : list (string * team_entry)) :
  strict not_a_lookup (TeamSync.synchronizeTeamData slugify org auth teamData).
Proof.
  apply strict_forOf. intros [teamName entry].
  unfold TeamSync.synchronizeTeam. cbn [fst snd].
  destruct (members entry) as [ms|]; [|apply strict_throw].
  apply strict_bind; [apply strict_getExistingTeamAndMembers|].
  intros found. eapply strict_equiv; [apply reconcileMembers_issue|].
  apply strict_issue.
Qed.

Lemma log_catch_failed (m : io run_status) {S} (h : client S) (s : S) :
  log h (try_catch m (λ error, Return (Failed (message error)))) s = log h m s.
Proof. unfold log. by rewrite exec_catch_failed. Qed.

Lemma outcome_catch_failed (m : io run_status) {S} (h : client S) (s : S) :
  outcome h (try_catch m (λ error, Return (Failed (message error)))) s =
    match outcome h m s with
    | inl e => inr (Failed (message e))
    | inr st => inr st
    end.
Proof. unfold outcome. by rewrite exec_catch_failed. Qed.

(** X1. In the team synchroniser a rejected request that is not one of the
    two lookups is the last request of the whole run: the run fails with the
    message of that error, and neither the rest of the team nor any later
    team is processed. *)
Theorem sync_stops_at_rejection (slugify : string → string)
    (JSON_parse : string → Error + list (string * team_entry))
    (Buffer_toString : string → string → string) (context : Context)
    (teamDataPath : string) {S : Type} (h : client S) (s : S)
    (i : nat) (c : call) (e : Error) :
  let run := TeamSync.run slugify JSON_parse Buffer_toString context teamDataPath in
  log h run s !! i = Some (c, Some e) → not_a_lookup c →
  outcome h run s = inr (Failed (message e)) ∧ length (log h run s) = Datatypes.S i.
Proof.
  intros run. unfold run, TeamSync.run.
  rewrite log_catch_failed, outcome_catch_failed.
  match goal with |- context [log h ?m s] => set (body := m) end.
  intros Hi HP.
  assert (Hbody : strict not_a_lookup body).
  { apply strict_bind; [apply strict_await|]. intros authenticated.
    apply strict_bind.
    - unfold TeamSync.getTeamData, TeamSync.fetchContent.
      apply strict_bind.
      + apply strict_bind; [apply strict_await|].
        intros data. apply strict_return.
      + intros text. apply (strict_liftE _ (JSON_parse text)).
    - intros teamData. apply strict_bind; [apply strict_synchronizeTeamData|].
      intros _. apply strict_return. }
  destruct (Hbody _ h s i c e Hi HP) as [Hout Hlen]. by rewrite Hout.
Qed.

(** A witness of X1: the removal of carol is rejected because the team has
    gone in the meantime; alice is never added. *)
Lemma sync_stops_at_rejection_witness :
  outcome (Reference.api_vanishing "infra")
    (TeamSync.run Reference.slugify (Reference.team_file ["alice"; "bob"])
       Reference.Buffer_toString Reference.pr_context "teams.json")
    (Reference.acme_with "infra" ["bob"; "carol"])
  = inr (Failed "Not Found")
  ∧ length (log (Reference.api_vanishing "infra")
              (TeamSync.run Reference.slugify (Reference.team_file ["alice"; "bob"])
                 Reference.Buffer_toString Reference.pr_context "teams.json")
              (Reference.acme_with "infra" ["bob"; "carol"])) = 5.
Proof.
  refine (sync_stops_at_rejection Reference.slugify (Reference.team_file ["alice"; "bob"])
            Reference.Buffer_toString Reference.pr_context "teams.json"
            (Reference.api_vanishing "infra")
            (Reference.acme_with "infra" ["bob"; "carol"]) 4
            (teams_removeMembershipInOrg "acme" "infra" "carol") Reference.not_found _ _).
  - vm_compute. reflexivity.
  - exact I.
Defined.

Lemma strict_labelPullRequest (P : call → Prop)
    (Minimatch : value → Error + (string → bool)) (context : Context) (prNumber : Z)
    (changedFiles : list string) (labelGlobs : Map (list value))
    (teamLabelsToMembers : Map (list string)) :
  strict P (Labeler.labelPullRequest Minimatch context prNumber changedFiles labelGlobs
              teamLabelsToMembers).
Proof.
  unfold Labeler.labelPullRequest, Labeler.addLabels.
  apply strict_bind; [apply strict_liftE|]. intros globbed.
  repeat (apply strict_bind; [|intros _]);
    try (case_match; [apply strict_request|apply strict_return]).
Qed.

Lemma strict_getTeamLabelsToMembers (P : call → Prop)
    (JSON_parse : string → Error + list (string * team_entry))
    (Buffer_toString : string → string → string) (configObject : config) :
  strict P (Labeler.getTeamLabelsToMembers JSON_parse Buffer_toString configObject).
Proof.
  unfold Labeler.getTeamLabelsToMembers.
  destruct (teams_configuration_location configObject) as [loc|].
  - apply strict_bind; [apply strict_await|]. intros data.
    apply strict_bind; [apply strict_liftE|]. intros teamsData.
    apply strict_bind; [apply strict_liftE|]. intros entries. apply strict_return.
  - destruct (team_labels configObject); [apply strict_return|apply strict_throw].
Qed.

Lemma strict_labeler_body (P : call → Prop)
    (Minimatch : value → Error + (string → bool))
    (yaml_safeLoad : string → Error + config)
    (JSON_parse : string → Error + list (string * team_entry))
    (Buffer_toString : string → string → string) (context : Context)
    (configPath : string) (prNumber : Z) :
  strict P
    (let* configObject :=
       Labeler.getConfigurationContents yaml_safeLoad Buffer_toString context configPath in
     let* changedFiles := Labeler.getChangedFiles context prNumber in
     let* labelGlobs := liftE (Labeler.getLabelGlobs configObject) in
     let* teamLabelsToMembers :=
       Labeler.getTeamLabelsToMembers JSON_parse Buffer_toString configObject in
     Labeler.labelPullRequest Minimatch context prNumber changedFiles labelGlobs
       teamLabelsToMembers ;;;
     Return Succeeded).
Proof.
  apply strict_bind.
  { unfold Labeler.getConfigurationContents, Labeler.fetchContent.
    apply strict_bind; [|intros text; apply strict_liftE].
    apply strict_bind; [apply strict_await|]. intros data. apply strict_return. }
  intros configObject. apply strict_bind.
  { unfold Labeler.getChangedFiles. apply strict_bind; [apply strict_await|].
    intros files. apply strict_return. }
  intros changedFiles. apply strict_bind; [apply strict_liftE|]. intros labelGlobs.
  apply strict_bind; [apply strict_getTeamLabelsToMembers|]. intros teams.
  apply strict_bind; [apply strict_labelPullRequest|]. intros _. apply strict_return.
Qed.

(** X2. The labeller catches no rejection before the [catch] of [run]: a
    rejected request, whichever it is, is the last request of the run, and
    the run fails with the message of that error. *)
Theorem label_run_stops_at_rejection (Minimatch : value → Error + (string → bool))
    (yaml_safeLoad : string → Error + config)
    (JSON_parse : string → Error + list (string * team_entry))
    (Buffer_toString : string → string → string) (context : Context)
    (configPath : string) {S : Type} (h : client S) (s : S)
    (i : nat) (c : call) (e : Error) :
  let run := Labeler.run Minimatch yaml_safeLoad JSON_parse Buffer_toString context
               configPath in
  log h run s !! i = Some (c, Some e) →
  outcome h run s = inr (Failed (message e)) ∧ length (log h run s) = Datatypes.S i.
Proof.
  intros run. unfold run, Labeler.run.
  rewrite log_catch_failed, outcome_catch_failed.
  destruct (Labeler.getPrNumber context) as [prNumber|]; [|done].
  destruct (decide (prNumber = 0%Z)); [done|].
  intros Hi.
  destruct (strict_labeler_body (λ _, True) Minimatch yaml_safeLoad JSON_parse
              Buffer_toString context configPath prNumber _ h s i c e Hi I) as [Hout Hlen].
  by rewrite Hout.
Qed.

(** A witness of X2: the label request is rejected after the pull request
    has been closed. *)
Lemma label_run_stops_at_rejection_witness :
  outcome Reference.api_read_only_labels
    (Labeler.run Reference.Minimatch
       (Reference.configuration [("docs", VString "docs/**")] [("infra", ["dave"])])
       (Reference.team_file []) Reference.Buffer_toString Reference.pr_context
       "labeler.yml")
    Reference.acme
  = inr (Failed "Forbidden")
  ∧ length (log Reference.api_read_only_labels
              (Labeler.run Reference.Minimatch
                 (Reference.configuration [("docs", VString "docs/**")]
                    [("infra", ["dave"])])
                 (Reference.team_file []) Reference.Buffer_toString Reference.pr_context
                 "labeler.yml")
              Reference.acme) = 4.
Proof.
  refine (label_run_stops_at_rejection Reference.Minimatch
            (Reference.configuration [("docs", VString "docs/**")] [("infra", ["dave"])])
            (Reference.team_file []) Reference.Buffer_toString Reference.pr_context
            "labeler.yml" Reference.api_read_only_labels Reference.acme 3
            (issues_addLabels "acme" "widgets" 7 ["docs"; "infra"])
            (mkError "Forbidden" (Some 403%Z)) _).
  vm_compute. reflexivity.
Defined.

(** X3. When the author has a team label, the pull request is closed first;
    if the label request that follows is rejected, the pull request is never
    reopened: the requests are the closing and the label request, and the
    error of the label request is thrown. *)
Theorem rejected_labels_leave_closed (Minimatch : value → Error + (string → bool))
    (context : Context) (prNumber : Z) (changedFiles : list string)
    (labelGlobs : Map (list value)) (teamLabelsToMembers : Map (list string))
    (globbed : list string) (e : Error) {S : Type} (h : client S) (s : S) :
  let additionalLabels :=
    Labeler.getTeamLabel teamLabelsToMembers (Labeler.getPrAuthor context) in
  let m := Labeler.labelPullRequest Minimatch context prNumber changedFiles labelGlobs
             teamLabelsToMembers in
  let close := pulls_update (owner context) (repo context) prNumber "closed" in
  let apply := issues_addLabels (owner context) (repo context) prNumber
                 (stripHash <$> (globbed ++ additionalLabels)) in
  Labeler.globLabels Minimatch changedFiles labelGlobs = inr globbed →
  additionalLabels ≠ [] →
  (h close s).1 = inr tt →
  (h apply (h close s).2).1 = inl e →
  log h m s = [(close, None); (apply, Some e)] ∧ outcome h m s = inl e.
Proof.
  intros additionalLabels m close apply Hglob Hteam Hclose Happly.
  pose proof (labelPullRequest_issue Minimatch context prNumber _ _ teamLabelsToMembers _ Hglob)
    as Hm.
  fold m additionalLabels in Hm.
  rewrite (equiv_log _ _ h s Hm), (equiv_outcome _ _ h s Hm).
  unfold labelPlan. rewrite !(decide_False (P := additionalLabels = [])) by done.
  rewrite decide_False by (intros [_ ?]%app_eq_nil; done).
  cbn [app]. fold close apply. unfold log, outcome.
  rewrite !issue_cons, exec_bind, exec_request, Hclose. cbn [fst snd].
  rewrite exec_bind, exec_request, Happly. done.
Qed.

(** A witness of X3: the label request for the pull request of dave is
    rejected. *)
Lemma rejected_labels_leave_closed_witness :
  log Reference.api_read_only_labels
    (Labeler.labelPullRequest Reference.Minimatch Reference.pr_context 7
       ["docs/readme.md"] [("docs", [VString "docs/**"])] [("infra", ["dave"])])
    Reference.acme
  = [(pulls_update "acme" "widgets" 7 "closed", None);
     (issues_addLabels "acme" "widgets" 7 ["docs"; "infra"],
      Some (mkError "Forbidden" (Some 403%Z)))]
  ∧ outcome Reference.api_read_only_labels
      (Labeler.labelPullRequest Reference.Minimatch Reference.pr_context 7
         ["docs/readme.md"] [("docs", [VString "docs/**"])] [("infra", ["dave"])])
      Reference.acme
    = inl (mkError "Forbidden" (Some 403%Z)).
Proof.
  refine (rejected_labels_leave_closed Reference.Minimatch Reference.pr_context 7
            ["docs/readme.md"] [("docs", [VString "docs/**"])] [("infra", ["dave"])]
            ["docs"] (mkError "Forbidden" (Some 403%Z))
            Reference.api_read_only_labels Reference.acme _ _ _ _).
  - vm_compute. reflexivity.
  - discriminate.
  - reflexivity.
  - reflexivity.
Defined.

(** ** The team synchroniser: what the requests achieve *)

Lemma apply_removals (org slug : string) (l : list string) (members : gset string) :
  apply_requests slug members (teams_removeMembershipInOrg org slug <$> l)
  = members ∖ list_to_set l.
Proof.
  revert members. induction l as [|u l IH]; intros members.
  - simpl. apply set_eq. intros x. rewrite elem_of_difference.
    split; [|tauto]. intros Hx. split; [done|]. apply not_elem_of_empty.
  - cbn [fmap list_fmap apply_requests foldl apply_request].
    rewrite decide_True by done. fold (apply_requests slug).
    unfold apply_requests in IH. rewrite IH.
    apply set_eq. intros x. rewrite list_to_set_cons, !elem_of_difference, elem_of_union,
      elem_of_singleton. tauto.
Qed.

Lemma apply_additions (org slug : string) (l : list string) (members : gset string) :
  apply_requests slug members (teams_addOrUpdateMembershipInOrg org slug <$> l)
  = members ∪ list_to_set l.
Proof.
  revert members. induction l as [|u l IH]; intros members.
  - simpl. apply set_eq. intros x. rewrite elem_of_union.
    split; [tauto|]. by intros [?|?%not_elem_of_empty].
  - cbn [fmap list_fmap apply_requests foldl apply_request].
    rewrite decide_True by done. unfold apply_requests in IH. rewrite IH.
    apply set_eq. intros x. rewrite list_to_set_cons, !elem_of_union, elem_of_singleton.
    tauto.
Qed.

Lemma apply_requests_app (slug : string) (members : gset string) (t1 t2 : list call) :
  apply_requests slug members (t1 ++ t2)
  = apply_requests slug (apply_requests slug members t1) t2.
Proof. apply foldl_app. Qed.

(** X4. If every removal and addition takes effect as on a set, a
    reconciliation that returns leaves the team with exactly the desired
    members: from the existing members on the update path, and on the
    creation path from the creator, who is the only member of a team that has
    just been created. *)
Theorem reconcile_reaches_desired (org auth name slug : string)
    (desired existing : list string) (team : team_data) {S : Type} (h : client S) (s : S) :
  let update := TeamSync.reconcileMembers org auth name slug desired (Some team) existing in
  let create := TeamSync.reconcileMembers org auth name slug desired None [] in
  (outcome h update s = inr tt →
   apply_requests slug (list_to_set existing) (trace h update s) = list_to_set desired)
  ∧ (outcome h create s = inr tt →
     apply_requests slug {[auth]} (trace h create s) = list_to_set desired).
Proof.
  intros update create. split; intros Hout.
  - unfold update in *. rewrite (reconcile_trace_returns _ _ _ _ _ _ _ h s Hout).
    unfold reconcilePlan. rewrite apply_requests_app, apply_removals, apply_additions.
    apply set_eq. intros x.
    rewrite elem_of_union, elem_of_difference, !elem_of_list_to_set, !list_elem_of_filter.
    destruct (decide (x ∈ existing)), (decide (x ∈ desired)); tauto.
  - unfold create in *. rewrite (reconcile_trace_returns _ _ _ _ _ _ _ h s Hout).
    unfold reconcilePlan. rewrite filter_not_in_nil.
    change ([?a; ?b] ++ ?l) with ([a] ++ (teams_removeMembershipInOrg org slug <$> [auth]) ++ l).
    rewrite !apply_requests_app, apply_removals, apply_additions.
    cbn [apply_requests foldl apply_request].
    apply set_eq. intros x.
    rewrite elem_of_union, elem_of_difference, !elem_of_list_to_set, elem_of_singleton,
      list_elem_of_singleton.
    destruct (decide (x = auth)); tauto.
Qed.

(** A witness of X4: carol is removed from and alice is added to the team of
    bob and carol. *)
Lemma reconcile_reaches_desired_witness :
  apply_requests "infra" (list_to_set ["bob"; "carol"])
    (trace Reference.api
       (TeamSync.reconcileMembers "acme" "svc-bot" "infra" "infra" ["alice"; "bob"]
          (Some Reference.infra) ["bob"; "carol"])
       (Reference.acme_with "infra" ["bob"; "carol"]))
  = list_to_set ["alice"; "bob"].
Proof.
  refine (proj1 (reconcile_reaches_desired "acme" "svc-bot" "infra" "infra"
            ["alice"; "bob"] ["bob"; "carol"] Reference.infra Reference.api
            (Reference.acme_with "infra" ["bob"; "carol"])) _).
  vm_compute. reflexivity.
Defined.

(** ** The team synchroniser: which requests it issues *)

Lemma trace_bind {A B} (m : io A) (f : A → io B) {S} (h : client S) (s : S) :
  trace h (bind m f) s =
    trace h m s ++ match outcome h m s with
                   | inl _ => []
                   | inr a => trace h (f a) (final h m s)
                   end.
Proof. unfold trace. rewrite log_bind, fmap_app. by destruct (outcome h m s). Qed.

Lemma within_return (Q : call → Prop) {A} (a : A) : within Q (Return a).
Proof. by intros S h s c ?%elem_of_nil. Qed.

Lemma within_throw (Q : call → Prop) {A} (e : Error) : within Q (@Throw A e).
Proof. by intros S h s c ?%elem_of_nil. Qed.

Lemma within_bind (Q : call → Prop) {A B} (m : io A) (f : A → io B) :
  within Q m → (∀ a, within Q (f a)) → within Q (bind m f).
Proof.
  intros Hm Hf S h s c. rewrite trace_bind. intros [Hin|Hin]%elem_of_app.
  - by apply (Hm _ h s).
  - destruct (outcome h m s) as [e|a]; [by apply elem_of_nil in Hin|].
    by apply (Hf a _ h (final h m s)).
Qed.

Lemma within_issue (Q : call → Prop) (plan : list call) :
  (∀ c, c ∈ plan → Q c) → within Q (issue plan).
Proof.
  intros Hplan S h s c Hin. apply Hplan.
  apply (elem_of_prefix _ _ _ Hin). apply trace_issue_prefix.
Qed.

Lemma within_equiv (Q : call → Prop) {A} (m m' : io A) :
  m ≈ m' → within Q m' → within Q m.
Proof. intros Heq Hm S h s c. rewrite (equiv_trace _ _ h s Heq). apply Hm. Qed.

Lemma within_weaken (Q Q' : call → Prop) {A} (m : io A) :
  (∀ c, Q c → Q' c) → within Q m → within Q' m.
Proof. intros HQ Hm S h s c Hin. apply HQ. by apply (Hm S h s). Qed.

Lemma within_synchronizeTeam (slugify : string → string) (org auth : string)
    (team : string * team_entry) :
  within (team_request slugify org [team.1]) (TeamSync.synchronizeTeam slugify org auth team).
Proof.
  destruct team as [teamName entry]. unfold TeamSync.synchronizeTeam. cbn [fst snd].
  assert (Hslug : slugify teamName ∈ slugify <$> [teamName]) by by left.
  destruct (members entry) as [ms|]; [|apply within_throw].
  apply within_bind.
  - intros S h s c Hin. unfold trace in Hin.
    apply list_elem_of_fmap in Hin as ([c' r] & -> & Hin). cbn [fst].
    unfold log, TeamSync.getExistingTeamAndMembers in Hin. simpl in Hin.
    destruct (h (teams_getByName org (slugify teamName)) s) as [[e|t] s1];
      simpl in Hin.
    + apply list_elem_of_singleton in Hin as [= -> _]. by split.
    + destruct (h (teams_listMembersInOrg org (slugify teamName)) s1) as [[e|l] s2];
        simpl in Hin;
        apply elem_of_cons in Hin as [[= -> _]|[= -> _]%list_elem_of_singleton];
        by split.
  - intros found. eapply within_equiv; [apply reconcileMembers_issue|].
    apply within_issue. intros c. unfold reconcilePlan.
    rewrite elem_of_app, list_elem_of_fmap.
    intros [Hin|(u & -> & _)]; [|by split].
    destruct found.1.
    + apply list_elem_of_fmap in Hin as (u & -> & _). by split.
    + apply elem_of_cons in Hin as [->|Hin%list_elem_of_singleton].
      * split_and!; [done|by left|done].
      * subst c. by split.
Qed.

Lemma team_request_mono (slugify : string → string) (org : string)
    (names names' : list string) (c : call) :
  (∀ n, n ∈ names → n ∈ names') →
  team_request slugify org names c → team_request slugify org names' c.
Proof.
  intros Hsub.
  assert (Hslug : ∀ t, t ∈ slugify <$> names → t ∈ slugify <$> names').
  { intros t (n & -> & Hn)%list_elem_of_fmap. apply list_elem_of_fmap_2. auto. }
  destruct c; simpl; try tauto; intros H; destruct_and?; split_and?; auto.
Qed.

(** X5. Every request of [synchronizeTeamData] is a lookup, a removal or an
    addition on the slug of one of the teams of the team data, or the
    creation of one of those teams as a closed team, always in the
    organisation given: no other team, no other organisation and no other
    kind of request is touched, whatever the client answers. *)
Theorem sync_requests_are_scoped (slugify : string → string) (org auth : string)
    (teamData : list (string * team_entry)) {S : Type} (h : client S) (s : S) (c : call) :
  c ∈ trace h (TeamSync.synchronizeTeamData slugify org auth teamData) s →
  team_request slugify org teamData.*1 c.
Proof.
  revert S h s c. change (within (team_request slugify org teamData.*1)
                            (TeamSync.synchronizeTeamData slugify org auth teamData)).
  unfold TeamSync.synchronizeTeamData.
  induction teamData as [|team teamData IH]; [apply within_return|].
  rewrite forOf_cons. apply within_bind.
  - eapply within_weaken; [|apply within_synchronizeTeam].
    intros c. apply team_request_mono. intros n ->%list_elem_of_singleton. by left.
  - intros _. eapply within_weaken; [|apply IH].
    intros c. apply team_request_mono. intros n Hn. by right.
Qed.

(** A witness of X5: the creation of the team infra in the organisation
    acme. *)
Lemma sync_requests_are_scoped_witness :
  team_request Reference.slugify "acme" ["infra"] (teams_create "acme" "infra" "closed").
Proof.
  refine (sync_requests_are_scoped Reference.slugify "acme" "svc-bot"
            [("infra", {| members := Some [{| github := "alice" |}]; short := None |})]
            Reference.api Reference.acme (teams_create "acme" "infra" "closed") _).
  apply (bool_decide_unpack _). vm_compute. reflexivity.
Defined.

(** ** The team synchroniser: malformed team data *)

Lemma forOf_app {A} (l1 l2 : list A) (body : A → io unit) :
  forOf (l1 ++ l2) body ≈ (forOf l1 body ;;; forOf l2 body).
Proof.
  intros S h s. revert s. induction l1 as [|x l1 IH]; intros s.
  - simpl. by destruct (exec h (forOf l2 body) s) as [[??]?].
  - rewrite <-app_comm_cons, !forOf_cons, !exec_bind.
    destruct (exec h (body x) s) as [[l1' s1] [e|[]]]; cbn [fst snd]; [done|].
    rewrite IH, exec_bind.
    destruct (exec h (forOf l1 body) s1).2; cbn [fst snd]; by rewrite ?app_assoc.
Qed.

(** X6. A team of the team data that has no [members] makes
    [synchronizeTeamData] throw as soon as its turn comes, before any request
    for it: the teams before it are synchronised as they would be alone, and
    no request is issued for that team or for any team after it. *)
Theorem team_without_members_stops_sync (slugify : string → string) (org auth : string)
    (before after : list (string * team_entry)) (teamName : string) (entry : team_entry)
    {S : Type} (h : client S) (s : S) :
  let teamData := before ++ (teamName, entry) :: after in
  members entry = None →
  log h (TeamSync.synchronizeTeamData slugify org auth teamData) s
  = log h (TeamSync.synchronizeTeamData slugify org auth before) s
  ∧ ∃ e, outcome h (TeamSync.synchronizeTeamData slugify org auth teamData) s = inl e.
Proof.
  intros teamData Hmembers. unfold TeamSync.synchronizeTeamData, teamData.
  rewrite (equiv_log _ _ h s (forOf_app _ _ _)), (equiv_outcome _ _ h s (forOf_app _ _ _)).
  rewrite log_bind, outcome_bind, forOf_cons.
  destruct (outcome h (forOf before _) s) as [e|[]]; [rewrite app_nil_r; eauto|].
  assert (Hthrow : ∃ e, TeamSync.synchronizeTeam slugify org auth (teamName, entry) = Throw e).
  { unfold TeamSync.synchronizeTeam. cbn [fst snd]. rewrite Hmembers. by eexists. }
  destruct Hthrow as [e ->]. cbn [bind].
  split; [apply app_nil_r|]. by exists e.
Qed.

(** A witness of X6: the team data lists infra and then a team without
    members. *)
Lemma team_without_members_stops_sync_witness :
  log Reference.api
    (TeamSync.synchronizeTeamData Reference.slugify "acme" "svc-bot"
       ([("infra", {| members := Some [{| github := "alice" |}]; short := None |})] ++
        ("ops", {| members := None; short := None |}) ::
        [("web", {| members := Some [{| github := "bob" |}]; short := None |})]))
    Reference.acme
  = log Reference.api
      (TeamSync.synchronizeTeamData Reference.slugify "acme" "svc-bot"
         [("infra", {| members := Some [{| github := "alice" |}]; short := None |})])
      Reference.acme
  ∧ ∃ e, outcome Reference.api
           (TeamSync.synchronizeTeamData Reference.slugify "acme" "svc-bot"
              ([("infra", {| members := Some [{| github := "alice" |}]; short := None |})] ++
               ("ops", {| members := None; short := None |}) ::
               [("web", {| members := Some [{| github := "bob" |}]; short := None |})]))
           Reference.acme = inl e.
Proof.
  exact (team_without_members_stops_sync Reference.slugify "acme" "svc-bot"
           [("infra", {| members := Some [{| github := "alice" |}]; short := None |})]
           [("web", {| members := Some [{| github := "bob" |}]; short := None |})]
           "ops" {| members := None; short := None |} Reference.api Reference.acme eq_refl).
Defined.

(** X7. When the team data file is fetched but [JSON.parse] throws, the run
    of the synchroniser fails with the message of that error after two
    requests, the one for the authenticated user and the one for the file:
    no team is looked up or changed. *)
Theorem unreadable_team_data_changes_nothing (slugify : string → string)
    (JSON_parse : string → Error + list (string * team_entry))
    (Buffer_toString : string → string → string) (context : Context)
    (teamDataPath : string) (authenticated : user_data) (data : content_data) (e : Error)
    {S : Type} (h : client S) (s : S) :
  let run := TeamSync.run slugify JSON_parse Buffer_toString context teamDataPath in
  let getContents := repos_getContents (owner context) (repo context) teamDataPath
                       (sha context) in
  (h users_getAuthenticated s).1 = inr authenticated →
  (h getContents (h users_getAuthenticated s).2).1 = inr data →
  JSON_parse (Buffer_toString (content data) (encoding data)) = inl e →
  log h run s = [(users_getAuthenticated, None); (getContents, None)]
  ∧ outcome h run s = inr (Failed (message e)).
Proof.
  intros run getContents Hauth Hdata Hparse. unfold run, TeamSync.run.
  rewrite log_catch_failed, outcome_catch_failed.
  unfold log, outcome. rewrite exec_bind, exec_await, Hauth. cbn [fst snd].
  unfold TeamSync.getTeamData, TeamSync.fetchContent.
  rewrite !exec_bind, exec_await. fold getContents. rewrite Hdata. cbn [fst snd exec].
  rewrite Hparse. done.
Qed.

(** A witness of X7: the team data file does not parse. *)
Lemma unreadable_team_data_changes_nothing_witness :
  log Reference.api
    (TeamSync.run Reference.slugify (λ _, inl (mkError "Unexpected end of JSON input" None))
       Reference.Buffer_toString Reference.pr_context "teams.json")
    Reference.acme
  = [(users_getAuthenticated, None);
     (repos_getContents "acme" "widgets" "teams.json" "c0ffee", None)]
  ∧ outcome Reference.api
      (TeamSync.run Reference.slugify (λ _, inl (mkError "Unexpected end of JSON input" None))
         Reference.Buffer_toString Reference.pr_context "teams.json")
      Reference.acme
    = inr (Failed "Unexpected end of JSON input").
Proof.
  exact (unreadable_team_data_changes_nothing Reference.slugify
           (λ _, inl (mkError "Unexpected end of JSON input" None))
           Reference.Buffer_toString Reference.pr_context "teams.json"
           {| login := "svc-bot" |} {| content := ""; encoding := "base64" |}
           (mkError "Unexpected end of JSON input" None)
           Reference.api Reference.acme eq_refl eq_refl eq_refl).
Defined.

(** ** The labeller: how a run starts and where its teams come from *)

Lemma exec_labeler_run (Minimatch : value → Error + (string → bool))
    (yaml_safeLoad : string → Error + config)
    (JSON_parse : string → Error + list (string * team_entry))
    (Buffer_toString : string → string → string) (context : Context)
    (configPath : string) (pr : pull_request) {S} (h : client S) (s : S) :
  let getContents := repos_getContents (owner context) (repo context) configPath
                       (sha context) in
  payload_pull_request context = Some pr → number pr ≠ 0%Z →
  ∃ rest, log h (Labeler.run Minimatch yaml_safeLoad JSON_parse Buffer_toString context
                   configPath) s
          = (getContents, rejection (h getContents s).1) :: rest.
Proof.
  intros getContents Hpr Hn. unfold Labeler.run, Labeler.getPrNumber.
  rewrite log_catch_failed, Hpr, decide_False by done.
  unfold Labeler.getConfigurationContents, Labeler.fetchContent.
  rewrite !log_bind. unfold log at 1. rewrite exec_await. cbn [fst snd app].
  by eexists.
Qed.

(** X8. The labeller issues no request at all exactly when a required input
    is not supplied, the payload has no pull request, or the number of the
    pull request is 0.  With an input missing the run fails with the message
    of the error of [core.getInput]; with both inputs read and no request it
    ends without failure; and in every other case its first request fetches
    the configuration file at the path that was read. *)
Theorem label_run_without_pull_request (Minimatch : value → Error + (string → bool))
    (yaml_safeLoad : string → Error + config)
    (JSON_parse : string → Error + list (string * team_entry))
    (Buffer_toString : string → string → string) (context : Context)
    (getInput : string → bool → Error + string) {S : Type} (h : client S) (s : S) :
  let run := Labeler.run_with_inputs Minimatch yaml_safeLoad JSON_parse Buffer_toString
               context getInput in
  (log h run s = [] ↔
   (∃ e, getInput "repo-token" true = inl e)
   ∨ (∃ e, getInput "configuration-path" true = inl e)
   ∨ (∀ pr, payload_pull_request context = Some pr → number pr = 0%Z))
  ∧ (∀ e, getInput "repo-token" true = inl e → outcome h run s = inr (Failed (message e)))
  ∧ (∀ token configPath,
       getInput "repo-token" true = inr token →
       (∀ e, getInput "configuration-path" true = inl e →
          outcome h run s = inr (Failed (message e)))
       ∧ (getInput "configuration-path" true = inr configPath →
          (log h run s = [] → outcome h run s = inr Succeeded)
          ∧ (log h run s ≠ [] →
             ∃ r rest, log h run s
                       = (repos_getContents (owner context) (repo context) configPath
                            (sha context), r) :: rest))).
Proof.
  intros run.
  destruct (getInput "repo-token" true) as [e1|token] eqn:Htoken.
  { assert (Hexec := run_with_inputs_missing Minimatch yaml_safeLoad JSON_parse
                       Buffer_toString context getInput e1 h s (or_introl Htoken)).
    fold run in Hexec. unfold log, outcome. rewrite Hexec. split_and!.
    - split; [|done]. intros _. left. by exists e1.
    - by intros e [= <-].
    - intros token configPath [=]. }
  destruct (getInput "configuration-path" true) as [e2|configPath] eqn:Hpath.
  { assert (Hexec := run_with_inputs_missing Minimatch yaml_safeLoad JSON_parse
                       Buffer_toString context getInput e2 h s
                       (or_intror (conj (ex_intro _ token Htoken) Hpath))).
    fold run in Hexec. unfold log, outcome. rewrite Hexec. split_and!.
    - split; [|done]. intros _. right. left. by exists e2.
    - intros e [=].
    - intros token' configPath _. split; [by intros e [= <-]|]. intros [=]. }
  assert (Hrun := run_with_inputs_supplied Minimatch yaml_safeLoad JSON_parse
                    Buffer_toString context getInput token configPath Htoken Hpath).
  fold run in Hrun. rewrite Hrun.
  set (run' := Labeler.run Minimatch yaml_safeLoad JSON_parse Buffer_toString context
                 configPath).
  assert (Hcases :
    (log h run' s = [] ↔ ∀ pr, payload_pull_request context = Some pr → number pr = 0%Z)
    ∧ (log h run' s = [] → outcome h run' s = inr Succeeded)
    ∧ (log h run' s ≠ [] →
       ∃ r rest, log h run' s
                 = (repos_getContents (owner context) (repo context) configPath
                      (sha context), r) :: rest)).
  { destruct (payload_pull_request context) as [pr|] eqn:Hpr.
    - destruct (decide (number pr = 0%Z)) as [Hn|Hn].
      + assert (Hexec : exec h run' s = ([], s, inr Succeeded)).
        { unfold run', Labeler.run, Labeler.getPrNumber. by rewrite Hpr, decide_True. }
        unfold log, outcome. rewrite Hexec. split_and!; [|done..].
        split; [|done]. by intros _ pr' [= <-].
      + destruct (exec_labeler_run Minimatch yaml_safeLoad JSON_parse Buffer_toString
                    context configPath pr h s Hpr Hn) as [rest Hlog].
        fold run' in Hlog. rewrite Hlog. split_and!.
        * split; [done|]. intros Hall. by destruct Hn; apply Hall.
        * done.
        * intros _. by eexists _, _.
    - assert (Hexec : exec h run' s = ([], s, inr Succeeded)).
      { unfold run', Labeler.run, Labeler.getPrNumber. by rewrite Hpr. }
      unfold log, outcome. rewrite Hexec. split_and!; done. }
  destruct Hcases as (Hiff & Hnone & Hsome). split_and!.
  - rewrite Hiff. split; [by auto|]. by intros [[e [=]]|[[e [=]]|Hall]].
  - intros e [=].
  - intros token' configPath' _. split; [intros e [=]|]. by intros [= <-].
Qed.

(** A witness of X8: without a token the run on a pull request fails before
    any request. *)
Lemma label_run_without_pull_request_witness :
  outcome Reference.api
    (Labeler.run_with_inputs Reference.Minimatch (Reference.configuration [] [])
       (Reference.team_file []) Reference.Buffer_toString Reference.pr_context
       Reference.inputs_without_token)
    Reference.acme
  = inr (Failed "Input required and not supplied: repo-token").
Proof.
  exact (proj1 (proj2 (label_run_without_pull_request Reference.Minimatch
           (Reference.configuration [] []) (Reference.team_file [])
           Reference.Buffer_toString Reference.pr_context Reference.inputs_without_token
           Reference.api Reference.acme))
         (mkError "Input required and not supplied: repo-token" None) eq_refl).
Defined.

(** X9. A configuration with neither [teams_configuration_location] nor
    [team_labels] makes every run on a pull request fail, also when its glob
    rules are well formed and match: once the configuration and the changed
    files are fetched, the run throws before any label is computed, so no
    label is applied and the pull request is not closed. *)
Theorem missing_team_labels_fail_run (Minimatch : value → Error + (string → bool))
    (yaml_safeLoad : string → Error + config)
    (JSON_parse : string → Error + list (string * team_entry))
    (Buffer_toString : string → string → string) (context : Context)
    (configPath : string) (cfg : config) (data : content_data) (files : list file_data)
    (pr : pull_request) {S : Type} (h : client S) (s : S) :
  let run := Labeler.run Minimatch yaml_safeLoad JSON_parse Buffer_toString context
               configPath in
  let getContents := repos_getContents (owner context) (repo context) configPath
                       (sha context) in
  let listFiles := pulls_listFiles (owner context) (repo context) (number pr) in
  payload_pull_request context = Some pr → number pr ≠ 0%Z →
  (h getContents s).1 = inr data →
  yaml_safeLoad (Buffer_toString (content data) (encoding data)) = inr cfg →
  (h listFiles (h getContents s).2).1 = inr files →
  Forall (λ entry, accepted entry.2) (file_pattern_labels cfg) →
  teams_configuration_location cfg = None → team_labels cfg = None →
  log h run s = [(getContents, None); (listFiles, None)]
  ∧ ∃ msg, outcome h run s = inr (Failed msg).
Proof.
  intros run getContents listFiles Hpr Hn Hdata Hload Hfiles Hrules Hloc Hteams.
  unfold run, Labeler.run, Labeler.getPrNumber.
  rewrite log_catch_failed, outcome_catch_failed, Hpr, decide_False by done.
  unfold log, outcome.
  rewrite exec_bind, (exec_getConfigurationContents _ _ _ _ data h s Hdata), Hload.
  cbn [fst snd]. rewrite exec_bind, exec_getChangedFiles. fold getContents listFiles.
  rewrite Hfiles. cbn [fst snd rejection].
  destruct (getLabelGlobMapFrom_accepts (file_pattern_labels cfg) [] Hrules) as [m Hm].
  unfold Labeler.getLabelGlobs, Labeler.getLabelGlobMapFromObject.
  rewrite exec_bind, exec_liftE, Hm. cbn [fst snd].
  unfold Labeler.getTeamLabelsToMembers. rewrite Hloc, Hteams. cbn [bind exec fst snd app].
  split; [done|]. by eexists.
Qed.

(** A witness of X9: a configuration that only has the rule docs. *)
Lemma missing_team_labels_fail_run_witness :
  log Reference.api
    (Labeler.run Reference.Minimatch
       (λ _, inr {| file_pattern_labels := [("docs", VString "docs/**")];
                    teams_configuration_location := None; team_labels := None |})
       (Reference.team_file []) Reference.Buffer_toString Reference.pr_context
       "labeler.yml")
    Reference.acme
  = [(repos_getContents "acme" "widgets" "labeler.yml" "c0ffee", None);
     (pulls_listFiles "acme" "widgets" 7, None)]
  ∧ ∃ msg,
      outcome Reference.api
        (Labeler.run Reference.Minimatch
           (λ _, inr {| file_pattern_labels := [("docs", VString "docs/**")];
                        teams_configuration_location := None; team_labels := None |})
           (Reference.team_file []) Reference.Buffer_toString Reference.pr_context
           "labeler.yml")
        Reference.acme
      = inr (Failed msg).
Proof.
  refine (missing_team_labels_fail_run Reference.Minimatch
            (λ _, inr {| file_pattern_labels := [("docs", VString "docs/**")];
                         teams_configuration_location := None; team_labels := None |})
            (Reference.team_file []) Reference.Buffer_toString Reference.pr_context
            "labeler.yml"
            {| file_pattern_labels := [("docs", VString "docs/**")];
               teams_configuration_location := None; team_labels := None |}
            {| content := ""; encoding := "base64" |}
            ((λ f, {| filename := f |}) <$> ["docs/readme.md"; "action.yml"])
            {| number := 7; user := {| login := "dave" |} |}
            Reference.api Reference.acme eq_refl _ eq_refl eq_refl eq_refl _ eq_refl eq_refl).
  - simpl. lia.
  - by repeat constructor.
Defined.

(** ** The labeller: the team map *)

Lemma Map_set_fresh {V} (m : Map V) (key : string) (v : V) :
  key ∉ m.*1 → Map_set m key v = m ++ [(key, v)].
Proof.
  induction m as [|[k w] m IH]; intros Hfresh; [done|].
  cbn [Map_set]. rewrite fmap_cons in Hfresh. cbn [fst] in Hfresh.
  rewrite decide_False by (intros ->; apply Hfresh; by left).
  rewrite IH; [done|]. intros Hin. apply Hfresh. by right.
Qed.

Lemma elem_of_Map_set_same {V} (m : Map V) (key : string) (v : V) :
  (key, v) ∈ Map_set m key v.
Proof.
  induction m as [|[k w] m IH]; [by left|].
  cbn [Map_set]. destruct (decide (k = key)) as [->|Hne]; [by left|by right].
Qed.

Lemma elem_of_Map_set_other {V} (m : Map V) (key k : string) (v w : V) :
  k ≠ key → (k, w) ∈ m → (k, w) ∈ Map_set m key v.
Proof.
  intros Hne. induction m as [|[k' w'] m IH]; [by intros ?%elem_of_nil|].
  cbn [Map_set]. destruct (decide (k' = key)) as [->|Hne'].
  - intros [[= ? ?]|Hin]%elem_of_cons; [congruence|by right].
  - intros [Heq|Hin]%elem_of_cons; [rewrite Heq; by left|right; by apply IH].
Qed.

Lemma Map_fold_NoDup {V} (entries : list (string * V)) (m : Map V) :
  NoDup m.*1 → NoDup (foldl (λ m kv, Map_set m kv.1 kv.2) m entries).*1.
Proof.
  revert m. induction entries as [|[k v] entries IH]; intros m Hnd; [done|].
  simpl. by apply IH, Map_set_NoDup.
Qed.

Lemma Map_fold_keeps {V} (entries : list (string * V)) (m : Map V) (k : string) (w : V) :
  k ∉ entries.*1 → (k, w) ∈ m → (k, w) ∈ foldl (λ m kv, Map_set m kv.1 kv.2) m entries.
Proof.
  revert m. induction entries as [|[k' v'] entries IH]; intros m Hfresh Hin; [done|].
  rewrite fmap_cons in Hfresh. cbn [fst] in Hfresh. simpl. apply IH.
  - intros Hk. apply Hfresh. by right.
  - apply elem_of_Map_set_other; [|done]. intros ->. apply Hfresh. by left.
Qed.

Lemma Map_fold_distinct {V} (entries : list (string * V)) (m : Map V) :
  NoDup (m ++ entries).*1 →
  foldl (λ m kv, Map_set m kv.1 kv.2) m entries = m ++ entries.
Proof.
  revert m. induction entries as [|[k v] entries IH]; intros m Hnd.
  - by rewrite app_nil_r.
  - simpl. rewrite Map_set_fresh.
    + rewrite IH; rewrite <-app_assoc; [done|]. done.
    + rewrite fmap_app in Hnd. apply NoDup_app in Hnd as (_ & Hdisj & _).
      intros Hin. apply (Hdisj k Hin). rewrite fmap_cons. by left.
Qed.

(** X10. [new Map(entries)] keeps one entry for each key.  When the keys of
    the entries are distinct, the map has the entries as they are, in their
    order.  When a key occurs more than once, the map keeps the value of its
    last occurrence only: a team label that two teams give has the members of
    the last of them, so that [getTeamLabel] gives this label to an author
    exactly when that last team lists the author. *)
Theorem team_map_last_entry_wins (before after : list (string * list string))
    (label : string) (authors : list string) (author : string) :
  let entries := before ++ (label, authors) :: after in
  NoDup (Map_new entries).*1
  ∧ (NoDup entries.*1 → Map_new entries = entries)
  ∧ (label ∉ after.*1 →
     (∀ others, (label, others) ∈ Map_new entries ↔ others = authors)
     ∧ (label ∈ Labeler.getTeamLabel (Map_new entries) author ↔ author ∈ authors)).
Proof.
  intros entries.
  assert (Hnd : NoDup (Map_new entries).*1) by (apply Map_fold_NoDup; constructor).
  split_and!; [done|..].
  - intros Hdistinct. by apply (Map_fold_distinct entries []).
  - intros Hlast.
    assert (Hin : (label, authors) ∈ Map_new entries).
    { unfold Map_new, entries. rewrite foldl_app. simpl.
      apply Map_fold_keeps; [done|]. apply elem_of_Map_set_same. }
    assert (Honly : ∀ others, (label, others) ∈ Map_new entries ↔ others = authors).
    { intros others. split; [|by intros ->].
      intros Hothers. by apply (NoDup_keys_functional (Map_new entries) label). }
    split; [done|]. rewrite elem_of_getTeamLabel. split.
    + intros (others & Hothers & Hauthor). by apply Honly in Hothers as ->.
    + intros Hauthor. by exists authors.
Qed.

(** A witness of X10: two teams give the label infra; dave is in the first
    of them only and does not get the label. *)
Lemma team_map_last_entry_wins_witness :
  "infra" ∈ Labeler.getTeamLabel
              (Map_new ([("infra", ["dave"])] ++ ("infra", ["erin"]) :: [("web", ["dave"])]))
              "dave"
  ↔ "dave" ∈ ["erin"].
Proof.
  refine (proj2 (proj2 (proj2 (team_map_last_entry_wins [("infra", ["dave"])]
            [("web", ["dave"])] "infra" ["erin"] "dave")) _)).
  intros Hin%list_elem_of_singleton. discriminate Hin.
Defined.

Lemma mapE_teamLabelEntry_members (teamsData : list (string * team_entry)) :
  Forall (λ team, is_Some (members team.2)) teamsData →
  Labeler.mapE Labeler.teamLabelEntry teamsData
  = inr ((λ team, (team_label team, team_usernames team)) <$> teamsData).
Proof.
  induction 1 as [|[name entry] teamsData [ms Hms] _ IH]; [done|].
  cbn [fst snd] in Hms.
  assert (Hentry : Labeler.teamLabelEntry (name, entry)
                   = inr (team_label (name, entry), team_usernames (name, entry))).
  { unfold Labeler.teamLabelEntry, team_label, team_usernames. cbn [fst snd].
    by rewrite Hms. }
  cbn [Labeler.mapE]. by rewrite Hentry, IH.
Qed.

Lemma mapE_teamLabelEntry_missing (teamsData : list (string * team_entry)) :
  Exists (λ team, members team.2 = None) teamsData →
  Labeler.mapE Labeler.teamLabelEntry teamsData
  = inl (mkError "unexpected team data format (expected an object mapping team names to team metadata" None).
Proof.
  induction teamsData as [|[name entry] teamsData IH]; intros Hex.
  - by apply Exists_nil in Hex.
  - cbn [Labeler.mapE]. unfold Labeler.teamLabelEntry at 1. cbn [fst snd].
    destruct (members entry) as [ms|] eqn:Hms; [|done].
    apply Exists_cons in Hex as [Hex|Hex]; [cbn [snd] in Hex; congruence|].
    by rewrite (IH Hex).
Qed.

(** X11. When the configuration names a [teams_configuration_location], the
    team map comes from that file alone, whatever [team_labels] holds: one
    request fetches it from the repository and path of the location, at the
    ref [master] unless the location gives another.  If the file parses and
    every team has [members], the map is [new Map] of the teams, each under
    its [short] name when it has a non-empty one and under its team name
    otherwise, with the [github] names of its members; if some team has no
    [members], the error about the team data format is thrown. *)
Theorem external_teams_file (JSON_parse : string → Error + list (string * team_entry))
    (Buffer_toString : string → string → string) (cfg : config) (loc : location)
    (data : content_data) (teamsData : list (string * team_entry))
    {S : Type} (h : client S) (s : S) :
  let m := Labeler.getTeamLabelsToMembers JSON_parse Buffer_toString cfg in
  let getContents := repos_getContents (loc_owner loc) (loc_repo loc) (loc_path loc)
                       (default "master" (loc_ref loc)) in
  teams_configuration_location cfg = Some loc →
  trace h m s = [getContents]
  ∧ ((h getContents s).1 = inr data →
     JSON_parse (Buffer_toString (content data) (encoding data)) = inr teamsData →
     (Forall (λ team, is_Some (members team.2)) teamsData →
      outcome h m s = inr (Map_new ((λ team, (team_label team, team_usernames team))
                                      <$> teamsData)))
     ∧ (Exists (λ team, members team.2 = None) teamsData →
        outcome h m s = inl (mkError "unexpected team data format (expected an object mapping team names to team metadata" None))).
Proof.
  intros m getContents Hloc. unfold m, Labeler.getTeamLabelsToMembers. rewrite Hloc.
  fold getContents. split.
  - rewrite trace_bind. unfold trace at 1, log, outcome, final. rewrite exec_await.
    cbn [fst snd]. destruct (h getContents s).1 as [e|d]; [done|].
    rewrite trace_bind. unfold trace at 1, log, outcome, final. rewrite exec_liftE.
    cbn [fst snd]. destruct (JSON_parse _) as [e|td]; [done|].
    rewrite trace_bind. unfold trace at 1, log, outcome, final. rewrite exec_liftE.
    cbn [fst snd]. by destruct (Labeler.mapE _ _).
  - intros Hdata Hparse.
    assert (Hout : outcome h
              (let* data := await getContents in
               let* teamsData :=
                 liftE (JSON_parse (Buffer_toString (content data) (encoding data))) in
               let* entries := liftE (Labeler.mapE Labeler.teamLabelEntry teamsData) in
               Return (Map_new entries)) s
            = match Labeler.mapE Labeler.teamLabelEntry teamsData with
              | inl e => inl e
              | inr entries => inr (Map_new entries)
              end).
    { rewrite outcome_bind. unfold outcome at 1, final. rewrite exec_await, Hdata.
      cbn [fst snd]. rewrite outcome_bind. unfold outcome at 1, final.
      rewrite exec_liftE, Hparse. cbn [fst snd]. rewrite outcome_bind.
      unfold outcome at 1, final. rewrite exec_liftE. cbn [fst snd].
      by destruct (Labeler.mapE _ _). }
    rewrite Hout. split.
    + intros Hall. by rewrite mapE_teamLabelEntry_members.
    + intros Hex. by rewrite mapE_teamLabelEntry_missing.
Qed.

(** A witness of X11: the teams file of another repository with the team
    Infrastructure, whose short name is infra. *)
Lemma external_teams_file_witness :
  outcome Reference.api
    (Labeler.getTeamLabelsToMembers
       (λ _, inr [("Infrastructure",
                   {| members := Some [{| github := "dave" |}]; short := Some "infra" |})])
       Reference.Buffer_toString
       {| file_pattern_labels := [];
          teams_configuration_location :=
            Some {| loc_owner := "acme"; loc_repo := "org"; loc_path := "teams.json";
                    loc_ref := None |};
          team_labels := Some [("web", ["dave"])] |})
    Reference.acme
  = inr [("infra", ["dave"])].
Proof.
  refine (proj1 (proj2 (external_teams_file
            (λ _, inr [("Infrastructure",
                        {| members := Some [{| github := "dave" |}];
                           short := Some "infra" |})])
            Reference.Buffer_toString
            {| file_pattern_labels := [];
               teams_configuration_location :=
                 Some {| loc_owner := "acme"; loc_repo := "org"; loc_path := "teams.json";
                         loc_ref := None |};
               team_labels := Some [("web", ["dave"])] |}
            {| loc_owner := "acme"; loc_repo := "org"; loc_path := "teams.json";
               loc_ref := None |}
            {| content := ""; encoding := "base64" |}
            [("Infrastructure",
              {| members := Some [{| github := "dave" |}]; short := Some "infra" |})]
            Reference.api Reference.acme eq_refl) eq_refl eq_refl) _).
  by repeat constructor.
Defined.

(** ** The labeller: rules and patterns *)

Lemma getLabelGlobMapFrom_distinct (entries : list (string * value))
    (labelGlobs : Map (list value)) :
  Forall (λ entry, accepted entry.2) entries →
  NoDup (labelGlobs.*1 ++ entries.*1) →
  Labeler.getLabelGlobMapFrom entries labelGlobs
  = inr (labelGlobs ++ ((λ entry, (entry.1, globs_of entry.2)) <$> entries)).
Proof.
  intros Hall. revert labelGlobs.
  induction Hall as [|[label v] entries Hv _ IH]; intros labelGlobs Hnd.
  - simpl. by rewrite app_nil_r.
  - assert (Hfresh : label ∉ labelGlobs.*1).
    { apply NoDup_app in Hnd as (_ & Hdisj & _).
      intros Hin. apply (Hdisj label Hin). rewrite fmap_cons. by left. }
    assert (Hstep : Labeler.getLabelGlobMapFrom ((label, v) :: entries) labelGlobs
                    = Labeler.getLabelGlobMapFrom entries
                        (labelGlobs ++ [(label, globs_of v)])).
    { cbn [Labeler.getLabelGlobMapFrom]. cbn [snd] in Hv.
      destruct v; simpl in Hv; try done; by rewrite Map_set_fresh. }
    rewrite Hstep, IH.
    + by rewrite <-app_assoc.
    + rewrite fmap_app, <-app_assoc. by rewrite fmap_cons in Hnd.
Qed.

(** X12. On a configuration object whose values are all strings or arrays
    (its labels are distinct, as the keys of an object are)
    [getLabelGlobMapFromObject] returns the labels in the order of the
    object, a string value as the list of that one pattern and an array value
    as its elements. *)
Theorem rules_are_normalised (configObject : list (string * value)) :
  NoDup configObject.*1 →
  Forall (λ entry, accepted entry.2) configObject →
  Labeler.getLabelGlobMapFromObject configObject
  = inr ((λ entry, (entry.1, globs_of entry.2)) <$> configObject).
Proof.
  intros Hnd Hall. by apply (getLabelGlobMapFrom_distinct configObject []).
Qed.

(** A witness of X12: the rules docs and build of the scenario. *)
Lemma rules_are_normalised_witness :
  Labeler.getLabelGlobMapFromObject
    [("docs", VString "docs/**"); ("build", VArray [VString "*.yml"; VString "*.yaml"])]
  = inr [("docs", [VString "docs/**"]); ("build", [VString "*.yml"; VString "*.yaml"])].
Proof.
  refine (rules_are_normalised
            [("docs", VString "docs/**");
             ("build", VArray [VString "*.yml"; VString "*.yaml"])] _ _).
  - apply (bool_decide_unpack _). vm_compute. reflexivity.
  - by repeat constructor.
Defined.

Lemma checkGlobs_skip (Minimatch : value → Error + (string → bool))
    (changedFiles : list string) (pre rest : list value) :
  Forall (matches_none Minimatch changedFiles) pre →
  Labeler.checkGlobs Minimatch changedFiles (pre ++ rest)
  = Labeler.checkGlobs Minimatch changedFiles rest.
Proof.
  induction 1 as [|glob pre (matcher & Hm & Hex) _ IH]; [done|].
  simpl. by rewrite Hm, Hex.
Qed.

(** X13. [checkGlobs] is decided by the first pattern of the rule that
    matches a changed file or that [Minimatch] rejects.  After patterns that
    compile and match nothing, a pattern that matches gives [true] and a
    pattern that is rejected gives the error of [Minimatch], whatever
    follows: the patterns after the deciding one are never compiled.  When
    no pattern decides, the result is [false]. *)
Theorem first_pattern_decides (Minimatch : value → Error + (string → bool))
    (changedFiles : list string) (pre post : list value) (glob : value) :
  Forall (matches_none Minimatch changedFiles) pre →
  Labeler.checkGlobs Minimatch changedFiles pre = inr false
  ∧ (∀ matcher, Minimatch glob = inr matcher → existsb matcher changedFiles = true →
       Labeler.checkGlobs Minimatch changedFiles (pre ++ glob :: post) = inr true)
  ∧ (∀ e, Minimatch glob = inl e →
       Labeler.checkGlobs Minimatch changedFiles (pre ++ glob :: post) = inl e).
Proof.
  intros Hpre. split_and!.
  - rewrite <-(app_nil_r pre). by rewrite checkGlobs_skip.
  - intros matcher Hm Hex. rewrite checkGlobs_skip by done. simpl. by rewrite Hm, Hex.
  - intros e He. rewrite checkGlobs_skip by done. simpl. by rewrite He.
Qed.

(** A witness of X13: the number after the pattern that matches is never
    given to [Minimatch]. *)
Lemma first_pattern_decides_witness :
  Labeler.checkGlobs Reference.Minimatch ["action.yml"]
    ([VString "docs/**"] ++ VString "*.yml" :: [VNumber 3])
  = inr true.
Proof.
  refine (proj1 (proj2 (first_pattern_decides Reference.Minimatch ["action.yml"]
            [VString "docs/**"] [VNumber 3] (VString "*.yml") _))
          (Reference.glob_match "*.yml") eq_refl _).
  - constructor; [|constructor]. exists (Reference.glob_match "docs/**"). by split.
  - vm_compute. reflexivity.
Defined.

Lemma globLabels_sublist (Minimatch : value → Error + (string → bool))
    (changedFiles : list string) (labelGlobs : Map (list value)) (labels : list string) :
  Labeler.globLabels Minimatch changedFiles labelGlobs = inr labels →
  labels `sublist_of` labelGlobs.*1.
Proof.
  revert labels. induction labelGlobs as [|[label globs] rest IH]; intros labels.
  - by intros [= <-].
  - simpl. destruct (Labeler.checkGlobs _ _ _) as [e|matched]; [done|].
    destruct (Labeler.globLabels _ _ _) as [e|labels']; [done|].
    intros [= <-]. destruct matched.
    + by apply sublist_skip, IH.
    + by apply sublist_cons, IH.
Qed.

(** X14. The labels that the globs give come in the order of the rules of
    the configuration, and the labels that the teams give in the order of the
    team map; within each of the two lists no label occurs twice. *)
Theorem labels_follow_configuration (Minimatch : value → Error + (string → bool))
    (configObject : list (string * value)) (labelGlobs : Map (list value))
    (changedFiles globbed : list string) (teams : list (string * list string))
    (author : string) :
  Labeler.getLabelGlobMapFromObject configObject = inr labelGlobs →
  Labeler.globLabels Minimatch changedFiles labelGlobs = inr globbed →
  (globbed `sublist_of` labelGlobs.*1) ∧ NoDup globbed
  ∧ (Labeler.getTeamLabel (Map_new teams) author `sublist_of` (Map_new teams).*1)
  ∧ NoDup (Labeler.getTeamLabel (Map_new teams) author).
Proof.
  intros Hmap Hglob.
  assert (Hsub : globbed `sublist_of` labelGlobs.*1) by by eapply globLabels_sublist.
  assert (Hteam : Labeler.getTeamLabel (Map_new teams) author `sublist_of` (Map_new teams).*1).
  { unfold Labeler.getTeamLabel. apply fmap_sublist, sublist_filter. }
  split_and!; [done| |done|].
  - apply (sublist_NoDup _ _ (getLabelGlobMapFrom_NoDup configObject [] labelGlobs
                                 (NoDup_nil_2) Hmap) Hsub).
  - apply (sublist_NoDup _ (Map_new teams).*1); [|done].
    apply Map_fold_NoDup. constructor.
Qed.

(** A witness of X14: the labels of the scenario. *)
Lemma labels_follow_configuration_witness :
  NoDup ["docs"; "build"].
Proof.
  refine (proj1 (proj2 (labels_follow_configuration Reference.Minimatch
            [("docs", VString "docs/**");
             ("build", VArray [VString "*.yml"; VString "*.yaml"])]
            [("docs", [VString "docs/**"]); ("build", [VString "*.yml"; VString "*.yaml"])]
            ["docs/readme.md"; "action.yml"] ["docs"; "build"] [("infra", ["dave"])] "dave"
            _ _))).
  - reflexivity.
  - vm_compute. reflexivity.
Defined.

(** ** The labeller: the [#] characters of a label *)

Lemma stripHash_app (l k : string) :
  stripHash (l +:+ k) = stripHash l +:+ stripHash k.
Proof.
  induction l as [|c l IH]; [done|]. simpl.
  destruct (decide (c = "#"%char)); simpl; by rewrite IH.
Qed.

(** X15. Taking the [#] characters out of a label distributes over
    concatenation and changes nothing when done again; so two labels that
    differ only by [#] characters, wherever they stand, are applied as the
    same label. *)
Theorem stripHash_ignores_hashes (l k : string) :
  stripHash (l +:+ k) = stripHash l +:+ stripHash k
  ∧ stripHash (stripHash l) = stripHash l
  ∧ stripHash (l +:+ "#" +:+ k) = stripHash (l +:+ k).
Proof.
  split_and!.
  - apply stripHash_app.
  - apply stripHash_fixed, stripHash_no_hash.
  - by rewrite !stripHash_app.
Qed.
